(** * provide: a dependency injector (github.com/MatthewValentine/provide)

    A shallow embedding of the Go package [provide] and the verification
    of its specification.  The package keeps, per [Provider], a map from
    tasks (a type at the Partial or the Complete level) to scheduling
    states and a map from types to the single value constructed for the
    type.  Everything the package learns about Go types comes from the
    [reflect] library; that library is represented here by a table of
    type declarations, the [Universe]. *)

From stdpp Require Import gmap strings list.

(** ** The part of [reflect] the package relies on *)

Module reflect.
(** [reflect.Kind] *)
Inductive Kind :=
  | Invalid | Bool | Int | Uint | Float64 | Array | Chan | Func
  | Interface | Map | Ptr | Slice | Str | Struct | UnsafePointer.

#[global] Instance Kind_eq_dec : EqDecision Kind.
Proof. solve_decision. Defined.
End reflect.

(** [reflect.Type]: type identity.  A type is a declared (or otherwise
    pointer-free) type known by its name, or a pointer to a type. *)
Inductive rtype :=
  | TNamed (name : string)
  | TPtr (elem : rtype).

#[global] Instance rtype_eq_dec : EqDecision rtype.
Proof. solve_decision. Defined.

Fixpoint rtype_encode (t : rtype) : nat * string :=
  match t with
  | TNamed n => (0, n)
  | TPtr e => let '(k, n) := rtype_encode e in (S k, n)
  end.

Fixpoint rtype_decode (k : nat) (n : string) : rtype :=
  match k with
  | 0 => TNamed n
  | S k' => TPtr (rtype_decode k' n)
  end.

#[global] Instance rtype_countable : Countable rtype.
Proof.
  refine (inj_countable' rtype_encode (λ p, rtype_decode p.1 p.2) _).
  intros t. induction t as [n|e IH]; simpl; [done|].
  destruct (rtype_encode e) as [k n]; simpl in *. by rewrite IH.
Defined.

(** [reflect.Value].  The zero [reflect.Value] (what a lookup of a missing
    map key yields) is the [None] of [option value].  A Value got by
    [Elem] from a pointer is addressable: it does not hold a copy, it
    stands for the memory cell behind the pointer. *)
#[warnings="-register-all"]
Inductive value :=
  | VNil                       (* nil pointer, interface, map or channel *)
  | VPtr (a : nat)             (* pointer to the memory cell [a] *)
  | VStruct (fs : list value)  (* a struct, field by field *)
  | VStr (s : string)          (* a value of string kind *)
  | VErr (msg : string)        (* the value made by errors.New(msg) *)
  | VRef (a : nat).            (* the memory cell [a] itself: ptr.Elem() *)

(** [Value.IsNil], on values of a nillable kind *)
Definition IsNil (v : value) : bool :=
  match v with VNil => true | _ => false end.

(** What a Value yields when it is used (copied by [Set], passed to
    [Call], followed by [Elem]): an addressable Value yields what its
    memory cell holds at that time. *)
Definition read (h : list value) (v : value) : option value :=
  match v with VRef a => h !! a | _ => Some v end.

(** A function value (kind Func): its signature and what calling it does
    to the memory and returns. *)
Record Function := {
  In : list rtype;
  Out : list rtype;
  Call : list value → list value → list value * list value
    (* memory → arguments → (memory, results) *)
}.

(** [reflect.StructField]: the field's type, its tag, a list of key/value
    pairs, and whether it is exported ([PkgPath] is empty). *)
Record StructField := {
  field_Type : rtype;
  field_Tag : list (string * string);
  field_Exported : bool
}.

(** [StructTag.Lookup] *)
Fixpoint Lookup (tag : list (string * string)) (key : string) : option string :=
  match tag with
  | [] => None
  | (k, v) :: rest => if decide (k = key) then Some v else Lookup rest key
  end.

(** What [reflect] knows about the program's types. *)
Record Universe := {
  kindOf : string → reflect.Kind;           (* Kind of a named type *)
  elemOf : string → rtype;                  (* Elem of a named type of kind Ptr *)
  implementsError : string → bool;          (* Implements(errorType) *)
  structFields : string → list StructField; (* NumField / Field(i) *)
  PleaseProvide : rtype → option Function;  (* MethodByName("PleaseProvide");
                                               In includes the receiver *)
  zeroValue : rtype → value                 (* what reflect.New points to *)
}.

Section Reflect.
Variable U : Universe.

Definition Kind (typ : rtype) : reflect.Kind :=
  match typ with
  | TNamed n => kindOf U n
  | TPtr _ => reflect.Ptr
  end.

(** [Type.Elem], of a type of kind Ptr *)
Definition Elem (typ : rtype) : rtype :=
  match typ with TPtr e => e | TNamed n => elemOf U n end.

Definition PtrTo (typ : rtype) : rtype := TPtr typ.

(** [Type.String] *)
Fixpoint String_ (typ : rtype) : string :=
  match typ with
  | TNamed n => n
  | TPtr e => "*" +:+ String_ e
  end.

Definition Implements_error (typ : rtype) : bool :=
  match typ with TNamed n => implementsError U n | TPtr _ => false end.

Definition Fields (typ : rtype) : list StructField :=
  match typ with TNamed n => structFields U n | TPtr _ => [] end.

(** *** util *)

Definition isErrorType (typ : rtype) : bool :=
  bool_decide (Kind typ = reflect.Interface) && Implements_error typ.

Definition isReferenceType (typ : rtype) : bool :=
  let k := Kind typ in
  bool_decide (k = reflect.Ptr) || bool_decide (k = reflect.Interface)
  || bool_decide (k = reflect.Map) || bool_decide (k = reflect.Chan).
End Reflect.

(** ** types.go: tasks, states and initializers *)

Record task := Task {
  task_Type : rtype;
  task_Complete : bool
}.

#[global] Instance task_eq_dec : EqDecision task.
Proof. solve_decision. Defined.

#[global] Instance task_countable : Countable task :=
  inj_countable' (λ t, (task_Type t, task_Complete t))
                 (λ p, Task p.1 p.2)
                 (λ t, match t with Task _ _ => eq_refl end).

(** customProvide's local type [output] *)
Record output := {
  output_Type : rtype;
  output_IsErr : bool
}.

(** autoProvide's local type [Field] *)
Record Field := {
  Field_Type : rtype;
  Field_Index : nat;
  Field_MustBeComplete : bool
}.

(** The function values the package stores in [state.Do] are closures of
    four function literals.  Each constructor stands for one literal and
    carries the variables the literal captures; [run] below is the body.
    A captured variable the closure assigns to ([alreadyDone]) is captured
    by reference: the constructor holds its address among the latches. *)
Inductive closure :=
  | customDo (alreadyDone : nat) (v : Function)
             (ins : list rtype) (outs : list output)
      (* customProvide: doFn *)
  | autoNew (typ elem : rtype)
      (* autoProvide, pointer types: Partial.Do *)
  | autoDo (typ : rtype) (providedFields : list Field)
           (hasInitFn : bool) (initFnVal : option Function)
           (ins : list rtype)
      (* autoProvide, pointer types: doFn *)
  | autoDeref (typ ptrTo : rtype).
      (* autoProvide, default case: Partial.Do *)

Record state := State {
  Done : bool;
  InProgress : bool;
  DependsOn : list task;
  Do : option closure
}.

Record initializer := {
  init_Type : rtype;
  Partial : state;
  Complete : state
}.

(** ** The memory the package acts on *)

(** Ghost record of what happened, in order.  It is written, never read. *)
Inductive event :=
  | EvDo (t : task)                          (* the scheduler called s.Do of [t] *)
  | EvCall (alreadyDone : nat) (inputs : list value)
                                             (* a rule's function was called *)
  | EvStore (typ : rtype) (v : value)        (* values[typ] = v *)
  | EvSetField (a i : nat) (v : value)       (* field [i] of the struct at [a] set *)
  | EvInit (typ : rtype) (inputs : list value)  (* PleaseProvide was called *)
  | EvSet (typ : rtype) (a : nat) (v x : value).
      (* Provide set the variable at [a] from the stored Value [v],
         which yielded [x] *)

(** A [Provider] is its two maps ([nil] maps read as empty ones and
    [init] replaces them by empty ones, so both are the empty [gmap]).
    Around it: the memory behind pointers, the [alreadyDone] variables of
    the rules compiled so far, and the ghost trace. *)
Record world := World {
  tasks : gmap task state;
  values : gmap rtype value;
  heap : list value;
  latches : list bool;
  trace : list event
}.

(** A new Provider, in the memory [h]. *)
Definition fresh (h : list value) : world := World ∅ ∅ h [] [].

Definition emptyWorld : world := fresh [].

Inductive failure :=
  | Error (e : value)   (* a non-nil error is returned *)
  | Panic               (* a run-time panic of reflect or of an index *)
  | OutOfFuel.          (* the model's loop bound was reached *)

Inductive result (A : Type) :=
  | Ok (a : A)
  | Fail (f : failure).
Arguments Ok {A} a.
Arguments Fail {A} f.

(** State and failure: a failed computation keeps the changes made so far,
    as the Go code does when it returns early. *)
Definition M (A : Type) : Type := world → result A * world.

Definition ret {A} (a : A) : M A := λ w, (Ok a, w).
Definition fail {A} (f : failure) : M A := λ w, (Fail f, w).
Definition bind {A B} (c : M A) (k : A → M B) : M B :=
  λ w, match c w with
       | (Ok a, w') => k a w'
       | (Fail f, w') => (Fail f, w')
       end.
Definition get : M world := λ w, (Ok w, w).
Definition modify (f : world → world) : M unit := λ w, (Ok tt, f w).

Notation "x <- c1 ;; c2" := (bind c1 (λ x, c2))
  (at level 100, c1 at next level, right associativity).
Notation "c1 ;;; c2" := (bind c1 (λ _, c2))
  (at level 100, right associativity).

(** errors.New *)
Definition errors_New {A} (msg : string) : M A := fail (Error (VErr msg)).

Definition set_tasks (f : gmap task state → gmap task state) (w : world) : world :=
  World (f (tasks w)) (values w) (heap w) (latches w) (trace w).
Definition set_values (f : gmap rtype value → gmap rtype value) (w : world) : world :=
  World (tasks w) (f (values w)) (heap w) (latches w) (trace w).
Definition set_heap (f : list value → list value) (w : world) : world :=
  World (tasks w) (values w) (f (heap w)) (latches w) (trace w).
Definition set_latches (f : list bool → list bool) (w : world) : world :=
  World (tasks w) (values w) (heap w) (f (latches w)) (trace w).
Definition log (e : event) (w : world) : world :=
  World (tasks w) (values w) (heap w) (latches w) (trace w ++ [e]).

(** values[typ] = v *)
Definition store (typ : rtype) (v : value) : M unit :=
  modify (λ w, log (EvStore typ v) (set_values <[typ := v]> w)).

(** A [reflect] call on the zero Value panics. *)
Definition valid {A} (o : option A) : M A :=
  match o with Some a => ret a | None => fail Panic end.

(** ** custom.go: the body of [doFn] *)

(** The loop over the results of the rule's function. *)
Fixpoint storeOutputs (outs : list output) (i : nat) (outputs : list value) : M unit :=
  match outputs with
  | [] => ret tt
  | o :: rest =>
      out <- valid (outs !! i) ;;
      if output_IsErr out then
        if negb (IsNil o) then fail (Error o)
        else storeOutputs outs (S i) rest
      else
        (store (output_Type out) o ;;; storeOutputs outs (S i) rest)
  end.

(** The Values [inputs] as they are at this time in the memory [h]; none
    may be the zero Value. *)
Definition readAll (h : list value) (inputs : list (option value))
    : option (list value) :=
  mapM (λ input, input ≫= read h) inputs.

(** v.Call(inputs): the function receives what the inputs hold now. *)
Definition callFunction (ev : list value → event) (v : Function)
    (inputs : list (option value)) : M (list value) :=
  w <- get ;;
  args <- valid (readAll (heap w) inputs) ;;
  let '(h, outputs) := Call v (heap w) args in
  modify (λ w, log (ev args) (set_heap (λ _, h) w)) ;;;
  ret outputs.

Definition run_customDo (alreadyDone : nat) (v : Function)
    (ins : list rtype) (outs : list output) : M unit :=
  w <- get ;;
  done <- valid (latches w !! alreadyDone) ;;
  if done : bool then ret tt
  else
    modify (set_latches <[alreadyDone := true]>) ;;;
    w <- get ;;
    let inputs := (λ t, values w !! t) <$> ins in
    outputs <- callFunction (EvCall alreadyDone) v inputs ;;
    storeOutputs outs 0 outputs.

(** ** autoProvide: the bodies of its three function literals *)

Definition run_autoNew (U : Universe) (typ elem : rtype) : M unit :=
  w <- get ;;
  let a := length (heap w) in
  modify (set_heap (λ h, h ++ [zeroValue U elem])) ;;;
  store typ (VPtr a).

(** elem.Field(i).Set(x), where elem is the struct the pointer [v] points
    to and [fields] are the fields of its type: [Set] panics on a field
    that is not exported, and copies what [x] holds now. *)
Definition setField (fields : list StructField) (v : value) (i : nat)
    (x : option value) : M unit :=
  w <- get ;;
  match v with
  | VPtr a =>
      match heap w !! a with
      | Some (VStruct fs) =>
          if decide (i < length fs) then
            field <- valid (fields !! i) ;;
            if field_Exported field then
              x <- valid (x ≫= read (heap w)) ;;
              modify (λ w, log (EvSetField a i x)
                             (set_heap <[a := VStruct (<[i := x]> fs)]> w))
            else fail Panic
          else fail Panic
      | _ => fail Panic
      end
  | _ => fail Panic
  end.

Fixpoint setFields (fields : list StructField) (v : value)
    (providedFields : list Field) : M unit :=
  match providedFields with
  | [] => ret tt
  | field :: rest =>
      w <- get ;;
      setField fields v (Field_Index field) (values w !! Field_Type field) ;;;
      setFields fields v rest
  end.

(** The loop over the results of PleaseProvide. *)
Fixpoint firstError (outputs : list value) : M unit :=
  match outputs with
  | [] => ret tt
  | out :: rest => if negb (IsNil out) then fail (Error out) else firstError rest
  end.

Definition run_autoDo (U : Universe) (typ : rtype) (providedFields : list Field)
    (hasInitFn : bool) (initFnVal : option Function) (ins : list rtype) : M unit :=
  w <- get ;;
  let v := values w !! typ in
  (if decide (0 < length providedFields) then
     v <- valid (v ≫= read (heap w)) ;;
     setFields (Fields U (Elem U typ)) v providedFields
   else ret tt) ;;;
  if hasInitFn then
    w <- get ;;
    let inputs := v :: ((λ t, values w !! t) <$> ins) in
    initFnVal <- valid initFnVal ;;
    outputs <- callFunction (EvInit typ) initFnVal inputs ;;
    firstError outputs
  else ret tt.

Definition run_autoDeref (U : Universe) (typ ptrTo : rtype) : M unit :=
  w <- get ;;
  vptr <- valid (values w !! ptrTo ≫= read (heap w)) ;;
  match vptr with
  | VNil =>
      errors_New ("can't use nil pointer to automatically provide value for "
                  +:+ String_ typ)
  | VPtr a =>
      (* values[typ] = vptr.Elem(): the struct itself, not a copy *)
      valid (heap w !! a) ;;; store typ (VRef a)
  | _ => fail Panic
  end.

(** Calling a stored [Do]. *)
Definition run (U : Universe) (c : closure) : M unit :=
  match c with
  | customDo alreadyDone v ins outs => run_customDo alreadyDone v ins outs
  | autoNew typ elem => run_autoNew U typ elem
  | autoDo typ providedFields hasInitFn initFnVal ins =>
      run_autoDo U typ providedFields hasInitFn initFnVal ins
  | autoDeref typ ptrTo => run_autoDeref U typ ptrTo
  end.

(** ** customProvide *)

(** What [AddRule] can be handed as [provideFn]. *)
Inductive provideFn :=
  | FuncValue (v : Function)  (* a function *)
  | OtherValue                (* a value of any other kind *)
  | NilValue.                 (* the nil interface: ValueOf(nil).Type() panics *)

Section Custom.
Variable U : Universe.

Definition mkOutput (out : rtype) : output :=
  {| output_Type := out; output_IsErr := isErrorType U out |}.

(** The last loop of customProvide. *)
Fixpoint customInitializers (deps : list task) (doFn : closure)
    (outs : list output) : list initializer :=
  match outs with
  | [] => []
  | out :: rest =>
      if output_IsErr out then customInitializers deps doFn rest
      else
        {| init_Type := output_Type out;
           Partial := State false false deps (Some doFn);
           Complete := State false false [Task (output_Type out) false] None |}
        :: customInitializers deps doFn rest
  end.

Definition customProvide (provideFn : provideFn) : M (list initializer) :=
  match provideFn with
  | NilValue => fail Panic
  | OtherValue => errors_New "providers must be functions"
  | FuncValue v =>
      let ins := In v in
      let deps := (λ t, Task t true) <$> ins in
      let outs := mkOutput <$> Out v in
      (* alreadyDone := false *)
      w <- get ;;
      let alreadyDone := length (latches w) in
      modify (set_latches (λ l, l ++ [false])) ;;;
      let doFn := customDo alreadyDone v ins outs in
      ret (customInitializers deps doFn outs)
  end.
End Custom.

(** ** autoProvide *)

Section Auto.
Variable U : Universe.

(** The loop over the fields of the struct [elem]. *)
Fixpoint scanFields (elem : rtype) (fields : list StructField) (i : nat)
    (providedFields : list Field) : list Field + string :=
  match fields with
  | [] => inl providedFields
  | field :: rest =>
      match Lookup (field_Tag field) "provide" with
      | None => scanFields elem rest (S i) providedFields
      | Some tag =>
          let allowCircular := bool_decide (tag = "circular") in
          let continue :=
            scanFields elem rest (S i)
              (providedFields ++ [{| Field_Type := field_Type field;
                                     Field_Index := i;
                                     Field_MustBeComplete := negb allowCircular |}]) in
          if negb allowCircular then
            if negb (bool_decide (tag = "")) then
              inr ("unrecognized provide tag " +:+ tag +:+ " in " +:+ String_ elem)
            else continue
          else
            if negb (isReferenceType U (field_Type field)) then
              inr ("only reference types (pointer, map, chan) can be circularly provided to "
                   +:+ String_ elem +:+ ", not " +:+ String_ (field_Type field))
            else continue
      end
  end.

(** The loop over the result types of PleaseProvide. *)
Fixpoint checkOuts (typ : rtype) (outs : list rtype) : option string :=
  match outs with
  | [] => None
  | out :: rest =>
      if negb (isErrorType U out) then
        Some (String_ typ +:+ ".PleaseProvide must only return errors (which must be interfaces), not "
              +:+ String_ out)
      else checkOuts typ rest
  end.

Definition autoProvide (typ : rtype) : initializer + string :=
  match Kind U typ with
  | reflect.Interface =>
      inr (String_ typ +:+ " can't be automatically provided")
  | reflect.Ptr =>
      let elem := Elem U typ in
      match (if bool_decide (Kind U elem = reflect.Struct)
             then scanFields elem (Fields U elem) 0 []
             else inl []) with
      | inr err => inr err
      | inl providedFields =>
          let initFn := PleaseProvide U typ in
          let hasInitFn := bool_decide (is_Some initFn) in
          let ins := match initFn with
                     | Some f => drop 1 (In f)
                     | None => []
                     end in
          match (match initFn with
                 | Some f => checkOuts typ (Out f)
                 | None => None
                 end) with
          | Some err => inr err
          | None =>
              if bool_decide (length providedFields = 0) && negb hasInitFn then
                inr (String_ typ +:+ " can't be automatically provided")
              else
                let deps :=
                  [Task typ false]
                  ++ ((λ field, Task (Field_Type field) (Field_MustBeComplete field))
                        <$> providedFields)
                  ++ ((λ t, Task t true) <$> ins) in
                inl {| init_Type := typ;
                       Partial := State false false [] (Some (autoNew typ elem));
                       Complete := State false false deps
                         (Some (autoDo typ providedFields hasInitFn initFn ins)) |}
          end
      end
  | _ =>
      let ptrTo := PtrTo typ in
      inl {| init_Type := typ;
             Partial := State false false [Task ptrTo true]
                          (Some (autoDeref typ ptrTo));
             Complete := State false false [Task typ false] None |}
  end.
End Auto.

(** ** The Provider *)

Section Provider.
Variable U : Universe.

(** The zero [state] *)
Definition zeroState : state := State false false [] None.

(** p.state(t) *)
Definition Provider_state (t : task) : M state :=
  w <- get ;;
  match tasks w !! t with
  | Some s => ret s
  | None =>
      match autoProvide U (task_Type t) with
      | inr err => errors_New err
      | inl init =>
          modify (set_tasks <[Task (task_Type t) false := Partial init]>) ;;;
          modify (set_tasks <[Task (task_Type t) true := Complete init]>) ;;;
          w <- get ;;
          ret (default zeroState (tasks w !! t))
      end
  end.

(** The first index [i] with [stack[i] == t], or [len(stack)]. *)
Fixpoint indexOf (t : task) (stack : list task) : nat :=
  match stack with
  | [] => 0
  | x :: rest => if decide (x = t) then 0 else S (indexOf t rest)
  end.

(** strings.Join *)
Fixpoint Join (elems : list string) (sep : string) : string :=
  match elems with
  | [] => ""
  | [x] => x
  | x :: rest => x +:+ sep +:+ Join rest sep
  end.

Definition cycleError {A} (t : task) (stack : list task) : M A :=
  let i := indexOf t stack in
  let cycle := (λ x, String_ (task_Type x)) <$> drop i stack in
  errors_New ("cycle: " +:+ Join cycle " --> ").

(** The loop over s.DependsOn in [do]: returns the stack and hasDeps. *)
Fixpoint scheduleDeps (t : task) (deps : list task) (stack : list task)
    (hasDeps : bool) : M (list task * bool) :=
  match deps with
  | [] => ret (stack, hasDeps)
  | dep :: rest =>
      depState <- Provider_state dep ;;
      if Done depState then scheduleDeps t rest stack hasDeps
      else if InProgress depState then cycleError t stack
      else scheduleDeps t rest (stack ++ [dep]) true
  end.

(** The second [if] of the loop body of [do] and the pop after it. *)
Definition finishTask (t : task) (s : state) (stack newlyDone : list task)
    : M (list task * list task) :=
  if negb (Done s) && InProgress s then
    newlyDone <-
      match Do s with
      | Some doFn =>
          modify (log (EvDo t)) ;;;
          run U doFn ;;;
          ret (newlyDone ++ [t])
      | None => ret newlyDone
      end ;;
    modify (set_tasks <[t := State true (InProgress s) [] None]>) ;;;
    ret (removelast stack, newlyDone)
  else ret (removelast stack, newlyDone).

(** One iteration of the loop of [do], for a non-empty stack whose top
    (last) element is [t]. *)
Definition doStep (t : task) (stack newlyDone : list task)
    : M (list task * list task) :=
  s <- Provider_state t ;;
  if negb (Done s) && negb (InProgress s) then
    r <- scheduleDeps t (DependsOn s) stack false ;;
    let '(stack, hasDeps) := r in
    let s := State (Done s) true (DependsOn s) (Do s) in
    modify (set_tasks <[t := s]>) ;;;
    if hasDeps : bool then ret (stack, newlyDone)
    else finishTask t s stack newlyDone
  else finishTask t s stack newlyDone.

Fixpoint doLoop (fuel : nat) (stack newlyDone : list task) : M (list task) :=
  match last stack with
  | None => ret newlyDone
  | Some t =>
      match fuel with
      | 0 => fail OutOfFuel
      | S fuel =>
          r <- doStep t stack newlyDone ;;
          doLoop fuel r.1 r.2
      end
  end.

(** p.do(t) *)
Definition Provider_do (fuel : nat) (t : task) : M (list task) :=
  doLoop fuel [t] [].

(** The goals [complete] appends for the tasks a walk finished. *)
Fixpoint newGoals (newlyDone : list task) : list task :=
  match newlyDone with
  | [] => []
  | done :: rest =>
      if negb (task_Complete done) then Task (task_Type done) true :: newGoals rest
      else newGoals rest
  end.

Fixpoint completeLoop (fuel : nat) (goals : list task) (i : nat) : M unit :=
  match goals !! i with
  | None => ret tt
  | Some goal =>
      match fuel with
      | 0 => fail OutOfFuel
      | S fuel' =>
          newlyDone <- Provider_do fuel goal ;;
          completeLoop fuel' (goals ++ newGoals newlyDone) (S i)
      end
  end.

(** p.complete(typ) *)
Definition Provider_complete (fuel : nat) (typ : rtype) : M unit :=
  completeLoop fuel [Task typ true] 0.

(** The loop of AddRule over the initializers. *)
Fixpoint installInitializers (initializers : list initializer) : M unit :=
  match initializers with
  | [] => ret tt
  | init :: rest =>
      let t0 := Task (init_Type init) false in
      let t1 := Task (init_Type init) true in
      w <- get ;;
      if bool_decide (is_Some (tasks w !! t0)) then
        errors_New ("trying to provide the same type " +:+ String_ (task_Type t0)
                    +:+ " in multiple ways")
      else if bool_decide (is_Some (tasks w !! t1)) then
        errors_New ("trying to provide the same type " +:+ String_ (task_Type t1)
                    +:+ " in multiple ways")
      else
        modify (set_tasks <[t0 := Partial init]>) ;;;
        modify (set_tasks <[t1 := Complete init]>) ;;;
        installInitializers rest
  end.

Definition AddRule (provideFn : provideFn) : M unit :=
  initializers <- customProvide U provideFn ;;
  installInitializers initializers.

(** NewProvider: the rules are added to a new Provider, in order. *)
Fixpoint AddRules (provideFns : list provideFn) : M unit :=
  match provideFns with
  | [] => ret tt
  | provideFn :: rest => AddRule provideFn ;;; AddRules rest
  end.

Definition NewProvider (provideFns : list provideFn) : result unit * world :=
  AddRules provideFns emptyWorld.

(** An argument of Provide. *)
Inductive request :=
  | NotPointer                      (* not of kind Ptr (also the nil interface) *)
  | NilPointer (t : rtype)          (* a nil *t *)
  | Pointer (t : rtype) (a : nat).  (* a *t pointing to the memory cell [a] *)

Fixpoint Provide (fuel : nat) (ptrsToRequests : list request) : M unit :=
  match ptrsToRequests with
  | [] => ret tt
  | ptr :: rest =>
      match ptr with
      | NotPointer | NilPointer _ =>
          errors_New "arguments to Provide must be non-nil pointers (that Provide will set)"
      | Pointer t a =>
          if isErrorType U t then
            errors_New ("since " +:+ String_ t
                        +:+ " implements error, it is considered an error and cannot be provided")
          else
            Provider_complete fuel t ;;;
            w <- get ;;
            match values w !! t with
            | None => errors_New "should never happen: couldn't find value"
            | Some value =>
                (* v.Set(value): the variable receives what value holds now *)
                x <- valid (read (heap w) value) ;;
                modify (λ w, log (EvSet t a value x) (set_heap <[a := x]> w)) ;;;
                Provide fuel rest
            end
      end
  end.

(** A Provider's life: the calls made on it, in order.  A Provider that
    has returned an error is not used again. *)
Inductive call :=
  | CallAddRule (provideFn : provideFn)
  | CallProvide (ptrsToRequests : list request).

Definition perform (fuel : nat) (c : call) : M unit :=
  match c with
  | CallAddRule provideFn => AddRule provideFn
  | CallProvide ptrs => Provide fuel ptrs
  end.

Fixpoint lifetime (fuel : nat) (calls : list call) : M unit :=
  match calls with
  | [] => ret tt
  | c :: rest => perform fuel c ;;; lifetime fuel rest
  end.
End Provider.

(** * Vocabulary of the statements *)

(** Projections of the trace. *)
Definition storesOf (tr : list event) : list (rtype * value) :=
  omap (λ e, match e with EvStore typ v => Some (typ, v) | _ => None end) tr.
Definition callsOf (tr : list event) : list nat :=
  omap (λ e, match e with EvCall l _ => Some l | _ => None end) tr.
Definition initsOf (tr : list event) : list rtype :=
  omap (λ e, match e with EvInit typ _ => Some typ | _ => None end) tr.
Definition dosOf (tr : list event) : list task :=
  omap (λ e, match e with EvDo t => Some t | _ => None end) tr.
Definition setsOf (tr : list event) : list (rtype * value) :=
  omap (λ e, match e with EvSet typ _ v _ => Some (typ, v) | _ => None end) tr.
Definition writesOf (tr : list event) : list (rtype * value * value) :=
  omap (λ e, match e with EvSet typ _ v x => Some (typ, v, x) | _ => None end) tr.

(** The types whose value a rule stores: its results that are not errors. *)
Definition nonErr (outs : list output) : list rtype :=
  output_Type <$> filter (λ out, output_IsErr out = false) outs.

(** A sequence of writes to the ValueStore. *)
Definition insertAll (stored : list (rtype * value)) (m : gmap rtype value)
    : gmap rtype value :=
  foldl (λ m p, <[p.1 := p.2]> m) m stored.

(** [t] is Done in the TaskStore of [w]. *)
Definition isDone (w : world) (t : task) : Prop :=
  ∃ s, tasks w !! t = Some s ∧ Done s = true.

(** A function returns as many results as its type declares (what Go's
    typing of [Value.Call] guarantees). *)
Definition wellTyped (v : Function) : Prop :=
  ∀ h args, length (Call v h args).2 = length (Out v).

(** ** Invariants of the Provider *)

Definition logStores (stored : list (rtype * value)) : list event :=
  (λ p, EvStore p.1 p.2) <$> stored.

(** What running the closure [c] in [w] may do: [r] and [w'] are what
    [run] returns. *)
Definition effect (c : closure) (w : world) (r : result unit) (w' : world) : Prop :=
  tasks w' = tasks w ∧
  ∃ new, trace w' = trace w ++ new ∧
    values w' = insertAll (storesOf new) (values w) ∧
    dosOf new = [] ∧ setsOf new = [] ∧
    match c with
    | customDo l v ins outs =>
        initsOf new = [] ∧
        match latches w !! l with
        | Some true => w' = w ∧ r = Ok tt
        | Some false =>
            latches w' = <[l := true]> (latches w) ∧
            callsOf new `prefix_of` [l] ∧
            (storesOf new).*1 `prefix_of` nonErr outs ∧
            (r = Ok tt → wellTyped v → length outs = length (Out v) →
             (storesOf new).*1 = nonErr outs)
        | None => w' = w ∧ r = Fail Panic
        end
    | autoNew typ elem =>
        r = Ok tt ∧ latches w' = latches w ∧ callsOf new = [] ∧
        initsOf new = [] ∧ (storesOf new).*1 = [typ]
    | autoDeref typ ptrTo =>
        latches w' = latches w ∧ callsOf new = [] ∧ initsOf new = [] ∧
        match r with Ok _ => (storesOf new).*1 = [typ] | Fail _ => new = [] end
    | autoDo typ providedFields hasInitFn initFnVal ins =>
        latches w' = latches w ∧ callsOf new = [] ∧ storesOf new = [] ∧
        initsOf new `prefix_of` [typ] ∧
        (r = Ok tt → 0 < length providedFields ∨ hasInitFn = true →
         is_Some (values w !! typ))
    end.

(** Both levels of a type are in the TaskStore, or neither is. *)
Definition pairs (w : world) : Prop :=
  ∀ typ, is_Some (tasks w !! Task typ false) ↔ is_Some (tasks w !! Task typ true).

(** What p.state does when it derives a type. *)
Definition install (typ : rtype) (init : initializer) (w : world) : world :=
  set_tasks <[Task typ true := Complete init]>
    (set_tasks <[Task typ false := Partial init]> w).

Definition notStarted (w : world) (t : task) : Prop :=
  ∃ s, tasks w !! t = Some s ∧ Done s = false ∧ InProgress s = false.

(** The TaskStore of [w'] has every entry of [w]. *)
Definition extends (w w' : world) : Prop :=
  ∀ t s, tasks w !! t = Some s → tasks w' !! t = Some s.

(** Between two walks: [I] with the empty stack. *)
Definition idle (I : world → list task → list task → Prop) (w : world) : Prop :=
  ∃ nd, I w [] nd.

Definition admissibleCall (admissible : Function → Prop) (c : call) : Prop :=
  match c with
  | CallAddRule (FuncValue v) => admissible v
  | _ => True
  end.

(** What the state of a task that is not Done looks like: it is as a rule
    or an automatic derivation installed it, but for InProgress. *)
Definition pendingShape (w : world) (t : task) (s : state) : Prop :=
  if task_Complete t then
    match Do s with
    | None => DependsOn s = [Task (task_Type t) false]
    | Some (autoDo typ providedFields hasInitFn _ _) =>
        typ = task_Type t ∧ (0 < length providedFields ∨ hasInitFn = true)
    | _ => False
    end
  else
    match Do s with
    | Some (customDo l v ins outs) =>
        l < length (latches w) ∧ task_Type t ∈ nonErr outs ∧
        NoDup (nonErr outs) ∧ length outs = length (Out v) ∧
        (latches w !! l = Some false →
         ∀ typ, typ ∈ nonErr outs →
           ∃ s', tasks w !! Task typ false = Some s' ∧ Done s' = false ∧
                 Do s' = Do s)
    | Some (autoNew typ _) => typ = task_Type t
    | Some (autoDeref typ _) => typ = task_Type t
    | _ => False
    end.

Definition shape (w : world) : Prop :=
  ∀ t s, tasks w !! t = Some s → Done s = false → pendingShape w t s.

(** The calls recorded are of distinct closures, and the latch of each is set. *)
Definition latched (w : world) : Prop :=
  NoDup (callsOf (trace w)) ∧
  ∀ l, l ∈ callsOf (trace w) → latches w !! l = Some true.

(** The Partial task of [typ] will not store again: it is Done, or it is
    a rule's closure whose latch is set. *)
Definition spent (w : world) (typ : rtype) : Prop :=
  ∃ s, tasks w !! Task typ false = Some s ∧
    (Done s = true
     ∨ ∃ l v ins outs, Do s = Some (customDo l v ins outs) ∧
         latches w !! l = Some true).

(** What holds of the trace at any time, also after a failure. *)
Definition onceE (w : world) : Prop :=
  NoDup (storesOf (trace w)).*1 ∧
  values w = insertAll (storesOf (trace w)) ∅ ∧
  NoDup (dosOf (trace w)) ∧
  NoDup (initsOf (trace w)) ∧
  (∀ typ v, (typ, v) ∈ setsOf (trace w) → values w !! typ = Some v) ∧
  (∀ typ v x, (typ, v, x) ∈ writesOf (trace w) → x = v ∨ ∃ a, v = VRef a).

(** What holds in addition as long as no call has failed. *)
Definition once (w : world) : Prop :=
  onceE w ∧
  (∀ typ, typ ∈ (storesOf (trace w)).*1 → spent w typ) ∧
  (∀ t, t ∈ dosOf (trace w) → isDone w t) ∧
  (∀ typ, typ ∈ initsOf (trace w) → isDone w (Task typ true)).

(** The TaskStore of [w'] is that of [w], further along. *)
Definition advances (w w' : world) : Prop :=
  ∀ t s, tasks w !! t = Some s →
    ∃ s', tasks w' !! t = Some s' ∧
      (Done s' = true ∨ (Done s' = Done s ∧ Do s' = Do s)).

(** What holds of a Provider none of whose calls has failed. *)
Definition good (w : world) : Prop :=
  pairs w ∧ shape w ∧ latched w ∧ once w.

(** The tasks in progress are on the stack of the walk; and all that a
    task in progress depends on and that is not Done yet lies above it,
    unless the task lists itself among its dependencies. *)
Definition live (w : world) (st : list task) : Prop :=
  ∀ u s, tasks w !! u = Some s → InProgress s = true → Done s = false →
    u ∈ st ∧
    (u ∉ DependsOn s →
     ∃ pre post, st = pre ++ u :: post ∧ (u ∉ post) ∧
       ∀ d, d ∈ DependsOn s → isDone w d ∨ d ∈ post).

Definition valued (w : world) : Prop :=
  (∀ t s, tasks w !! t = Some s → Done s = true →
     is_Some (values w !! task_Type t)) ∧
  (∀ t s l v ins outs,
     tasks w !! t = Some s → Done s = false →
     Do s = Some (customDo l v ins outs) →
     wellTyped v ∧
     (latches w !! l = Some true →
      ∀ typ, typ ∈ nonErr outs → is_Some (values w !! typ)) ∧
     (∀ t' s' v' ins' outs',
        tasks w !! t' = Some s' → Done s' = false →
        Do s' = Some (customDo l v' ins' outs') → outs' = outs)).

(** What holds of a Provider none of whose calls has failed, when the
    functions of its rules are well typed. *)
Definition sound (w : world) (st : list task) : Prop :=
  pairs w ∧ shape w ∧ live w st ∧ valued w.

(** ** Example programs *)

(** The struct tag [`provide:"tag"`]. *)
Definition provideTag (tag : string) : list (string * string) := [("provide", tag)].

Definition Foo : rtype := TNamed "Foo".

Definition Bar : rtype := TNamed "Bar".

(** Two structs that need each other fully:
<<
    type Foo struct { Bar *Bar `provide:""` }
    type Bar struct { Foo *Foo `provide:""` }
>> *)
Definition mutualU : Universe := {|
  kindOf := λ _, reflect.Struct;
  elemOf := TNamed;
  implementsError := λ _, false;
  structFields := λ n,
    if decide (n = "Foo") then [{| field_Type := TPtr Bar; field_Tag := provideTag "";
        field_Exported := true |}]
    else if decide (n = "Bar") then [{| field_Type := TPtr Foo; field_Tag := provideTag "";
        field_Exported := true |}]
    else [];
  PleaseProvide := λ _, None;
  zeroValue := λ t, match t with TNamed _ => VStruct [VNil] | TPtr _ => VNil end
|}.

(** A struct with a field of its own pointer type:
<<
    type Foo struct { Me *Foo `provide:""` }
>> *)
Definition selfU : Universe := {|
  kindOf := λ _, reflect.Struct;
  elemOf := TNamed;
  implementsError := λ _, false;
  structFields := λ n,
    if decide (n = "Foo") then [{| field_Type := TPtr Foo; field_Tag := provideTag "";
        field_Exported := true |}]
    else [];
  PleaseProvide := λ _, None;
  zeroValue := λ t, match t with TNamed _ => VStruct [VNil] | TPtr _ => VNil end
|}.

(** A new Provider, in a memory whose cells [0 .. n-1] are variables of
    the caller, all nil. *)
Definition caller (n : nat) : world := fresh (replicate n VNil).

(** Two types of strings and the error interface. *)
Definition X : rtype := TNamed "X".

Definition Y : rtype := TNamed "Y".

Definition errorT : rtype := TNamed "error".

Definition rulesU : Universe := {|
  kindOf := λ n, if decide (n = "error") then reflect.Interface else reflect.Str;
  elemOf := TNamed;
  implementsError := λ n, bool_decide (n = "error");
  structFields := λ _, [];
  PleaseProvide := λ _, None;
  zeroValue := λ _, VStr ""
|}.

(** A rule that returns a value and a non-nil error:
<<
    func() (X, error) { return "x", errors.New("boom") }
>> *)
Definition failingRule : Function := {|
  In := []; Out := [X; errorT];
  Call := λ h _, (h, [VStr "x"; VErr "boom"])
|}.

(** [func() X { return "x" }] *)
Definition xRule : Function := {|
  In := []; Out := [X];
  Call := λ h _, (h, [VStr "x"])
|}.

(** [func() (X, Y) { return "x", "y" }] *)
Definition xyRule : Function := {|
  In := []; Out := [X; Y];
  Call := λ h _, (h, [VStr "x"; VStr "y"])
|}.

(** The results of a rule stored before its [k]-th: those among the first
    [k] that are not errors. *)
Fixpoint storedBefore (outs : list output) (i k : nat) (outputs : list value)
    : list (rtype * value) :=
  match k, outputs with
  | S k, o :: rest =>
      match outs !! i with
      | Some out =>
          if output_IsErr out then storedBefore outs (S i) k rest
          else (output_Type out, o) :: storedBefore outs (S i) k rest
      | None => []
      end
  | _, _ => []
  end.

(** Why [Provide] rejects a malformed argument, if it does. *)
Definition rejection (U : Universe) (ptr : request) : option string :=
  match ptr with
  | NotPointer | NilPointer _ =>
      Some "arguments to Provide must be non-nil pointers (that Provide will set)"
  | Pointer t _ =>
      if isErrorType U t then
        Some ("since " +:+ String_ t
              +:+ " implements error, it is considered an error and cannot be provided")
      else None
  end.

(** A field whose provide tag [autoProvide] refuses. *)
Definition badTag (U : Universe) (field : StructField) : Prop :=
  ∃ tag, Lookup (field_Tag field) "provide" = Some tag ∧
    ((tag ≠ "" ∧ tag ≠ "circular")
     ∨ (tag = "circular" ∧ isReferenceType U (field_Type field) = false)).

(** A struct with a field tagged "circular" that is a string:
<<
    type Foo struct { Name string `provide:"circular"` }
>> *)
Definition badTagU : Universe := {|
  kindOf := λ n, if decide (n = "Foo") then reflect.Struct else reflect.Str;
  elemOf := TNamed;
  implementsError := λ _, false;
  structFields := λ n,
    if decide (n = "Foo") then
      [{| field_Type := TNamed "string"; field_Tag := provideTag "circular";
        field_Exported := true |}]
    else [];
  PleaseProvide := λ _, None;
  zeroValue := λ _, VNil
|}.
















(** A struct requested by value, and a rule that changes it through the
    pointer:
<<
    type Label string
    type Box struct { V Label `provide:""` }
    func() Label { return "kp" }
    func(box *Box) X { box.V = "changed"; return "x" }
>> *)
Definition Box : rtype := TNamed "Box".

Definition Label : rtype := TNamed "Label".

Definition aliasU : Universe := {|
  kindOf := λ n, if decide (n = "Box") then reflect.Struct else reflect.Str;
  elemOf := TNamed;
  implementsError := λ _, false;
  structFields := λ n,
    if decide (n = "Box") then
      [{| field_Type := Label; field_Tag := provideTag "";
          field_Exported := true |}]
    else [];
  PleaseProvide := λ _, None;
  zeroValue := λ t, match t with
                    | TNamed n => if decide (n = "Box") then VStruct [VStr ""] else VStr ""
                    | TPtr _ => VNil
                    end
|}.

Definition labelRule : Function := {|
  In := []; Out := [Label];
  Call := λ h _, (h, [VStr "kp"])
|}.

Definition setRule : Function := {|
  In := [TPtr Box]; Out := [X];
  Call := λ h args,
    match args with
    | [VPtr a] => (<[a := VStruct [VStr "changed"]]> h, [VStr "x"])
    | _ => (h, [VStr "x"])
    end
|}.

(** * Verification *)

(** ** The monad *)

Lemma bind_inv {A B} (c : M A) (k : A → M B) w r w' :
  bind c k w = (r, w') →
  (∃ a w1, c w = (Ok a, w1) ∧ k a w1 = (r, w'))
  ∨ (∃ f, c w = (Fail f, w') ∧ r = Fail f).
Proof.
  unfold bind. destruct (c w) as [[a|f] w1]; intros H.
  - left; eauto.
  - right. inversion H; subst. eauto.
Qed.

Lemma bind_Ok_inv {A B} (c : M A) (k : A → M B) w b w' :
  bind c k w = (Ok b, w') → ∃ a w1, c w = (Ok a, w1) ∧ k a w1 = (Ok b, w').
Proof.
  intros [H|(f & _ & H)]%bind_inv; [done|discriminate].
Qed.

Lemma valid_inv {A} (o : option A) w r w' :
  valid o w = (r, w') →
  w' = w ∧ ((∃ a, o = Some a ∧ r = Ok a) ∨ (o = None ∧ r = Fail Panic)).
Proof.
  destruct o; unfold valid, ret, fail; intros [= <- <-]; eauto.
Qed.

(** Take a monadic equation apart, one bind at a time. *)
Ltac inv_ret_in H :=
  unfold errors_New in H; unfold ret, fail, get, modify in H; simplify_eq/=.
Tactic Notation "inv_ret" hyp(H) := inv_ret_in H.
Ltac inv_valid_in H :=
  let a := fresh "a" in
  apply valid_inv in H as [? [(a & ? & ?)|[? ?]]]; simplify_eq/=.
Tactic Notation "inv_valid" hyp(H) := inv_valid_in H.
Ltac inv_bind_in H :=
  let a := fresh "a" in let w := fresh "w" in
  let f := fresh "f" in let H1 := fresh "H" in let Hr := fresh "Hr" in
  apply bind_inv in H as [(a & w & H1 & H)|(f & H & Hr)];
  [|match type of Hr with
    | ?r = _ => first [discriminate Hr | subst r | injection Hr as <-]
    end].
Tactic Notation "inv_bind" hyp(H) := inv_bind_in H.

Lemma bind_get {B} (k : world → M B) w : bind get k w = k w w.
Proof. done. Qed.
Lemma bind_modify {B} f (k : unit → M B) w : bind (modify f) k w = k tt (f w).
Proof. done. Qed.
Lemma bind_ret {A B} (a : A) (k : A → M B) w : bind (ret a) k w = k a w.
Proof. done. Qed.
Lemma bind_fail {A B} f (k : A → M B) w : bind (fail f) k w = (Fail f, w).
Proof. done. Qed.

Ltac msimpl_in H :=
  repeat first [ rewrite bind_get in H | rewrite bind_modify in H
               | rewrite bind_ret in H | rewrite bind_fail in H ].
Tactic Notation "msimpl" hyp(H) := msimpl_in H.

(** ** What calling a stored closure does *)

Lemma storesOf_app tr1 tr2 : storesOf (tr1 ++ tr2) = storesOf tr1 ++ storesOf tr2.
Proof. apply omap_app. Qed.
Lemma callsOf_app tr1 tr2 : callsOf (tr1 ++ tr2) = callsOf tr1 ++ callsOf tr2.
Proof. apply omap_app. Qed.
Lemma initsOf_app tr1 tr2 : initsOf (tr1 ++ tr2) = initsOf tr1 ++ initsOf tr2.
Proof. apply omap_app. Qed.
Lemma dosOf_app tr1 tr2 : dosOf (tr1 ++ tr2) = dosOf tr1 ++ dosOf tr2.
Proof. apply omap_app. Qed.
Lemma setsOf_app tr1 tr2 : setsOf (tr1 ++ tr2) = setsOf tr1 ++ setsOf tr2.
Proof. apply omap_app. Qed.
Lemma writesOf_app tr1 tr2 : writesOf (tr1 ++ tr2) = writesOf tr1 ++ writesOf tr2.
Proof. apply omap_app. Qed.

Lemma writesOf_none tr : setsOf tr = [] → writesOf tr = [].
Proof.
  induction tr as [|e tr IH]; [done|]. destruct e; simpl; try done.
Qed.

Lemma writesOf_setsOf tr typ v x :
  (typ, v, x) ∈ writesOf tr → (typ, v) ∈ setsOf tr.
Proof.
  unfold writesOf, setsOf. rewrite !list_elem_of_omap.
  intros (e & He & Hx). exists e. split; [done|].
  destruct e; simplify_eq/=. done.
Qed.

Lemma read_direct h v x : read h v = Some x → x = v ∨ ∃ a, v = VRef a.
Proof. destruct v; simpl; intros ?; simplify_eq; eauto. Qed.

Lemma insertAll_app st1 st2 m :
  insertAll (st1 ++ st2) m = insertAll st2 (insertAll st1 m).
Proof. apply foldl_app. Qed.

Lemma insertAll_is_Some stored m typ :
  is_Some (m !! typ) → is_Some (insertAll stored m !! typ).
Proof.
  revert m. induction stored as [|[k v] st IH]; intros m Hm; [done|].
  simpl. apply IH. rewrite lookup_insert. case_decide; eauto.
Qed.

Lemma insertAll_elem stored m typ :
  typ ∈ stored.*1 → is_Some (insertAll stored m !! typ).
Proof.
  revert m. induction stored as [|[k v] st IH]; intros m; [by intros ?%elem_of_nil|].
  simpl. intros [->|Hin]%elem_of_cons; [|by apply IH].
  apply insertAll_is_Some. rewrite lookup_insert_eq. eauto.
Qed.

Lemma insertAll_other stored m typ :
  typ ∉ stored.*1 → insertAll stored m !! typ = m !! typ.
Proof.
  revert m. induction stored as [|[k v] st IH]; intros m; [done|].
  simpl. intros [Hne Hin]%not_elem_of_cons.
  rewrite IH by done. by rewrite lookup_insert_ne.
Qed.

Lemma storesOf_logStores stored : storesOf (logStores stored) = stored.
Proof. induction stored as [|[??] ? IH]; simpl; [done|]. by rewrite IH. Qed.
Lemma callsOf_logStores stored : callsOf (logStores stored) = [].
Proof. by induction stored. Qed.
Lemma initsOf_logStores stored : initsOf (logStores stored) = [].
Proof. by induction stored. Qed.
Lemma dosOf_logStores stored : dosOf (logStores stored) = [].
Proof. by induction stored. Qed.
Lemma setsOf_logStores stored : setsOf (logStores stored) = [].
Proof. by induction stored. Qed.

Lemma nonErr_cons out outs :
  nonErr (out :: outs) =
  if output_IsErr out then nonErr outs else output_Type out :: nonErr outs.
Proof.
  unfold nonErr. rewrite filter_cons. destruct (output_IsErr out); by case_decide.
Qed.

Lemma storeOutputs_effect outs outputs i w r w' :
  storeOutputs outs i outputs w = (r, w') →
  tasks w' = tasks w ∧ latches w' = latches w ∧ heap w' = heap w ∧
  ∃ stored,
    trace w' = trace w ++ logStores stored ∧
    values w' = insertAll stored (values w) ∧
    stored.*1 `prefix_of` nonErr (drop i outs) ∧
    (r = Ok tt → i + length outputs = length outs →
     stored.*1 = nonErr (drop i outs)).
Proof.
  revert i w. induction outputs as [|o rest IH]; intros i w H; simpl in H.
  - inv_ret H. do 3 (split; [done|]). exists []. simpl.
    rewrite app_nil_r. repeat split; [apply prefix_nil|].
    intros _ Hlen. rewrite drop_ge by lia. done.
  - inv_bind H.
    + inv_valid H0. rename a0 into out, H1 into Hout.
      rewrite (drop_S _ _ _ Hout), nonErr_cons.
      destruct (output_IsErr out) eqn:Herr.
      * destruct (IsNil o); simpl in H.
        -- apply IH in H as (? & ? & ? & stored & ? & ? & ? & Hall).
           do 3 (split; [done|]). exists stored. repeat split; try done.
           intros ??. apply Hall; [done|simpl in *; lia].
        -- inv_ret H. do 3 (split; [done|]). exists []. simpl.
           rewrite app_nil_r. repeat split; [apply prefix_nil|done].
      * inv_bind H.
        -- unfold store in H0. inv_ret H0.
           apply IH in H as (Ht & Hl & Hh & stored & Htr & Hv & Hpre & Hall).
           simpl in *. do 3 (split; [done|]).
           exists ((output_Type out, o) :: stored). simpl.
           rewrite Htr, <-app_assoc. repeat split; try done.
           ++ by apply prefix_cons.
           ++ intros ??. f_equal. apply Hall; [done|lia].
        -- unfold store in H. inv_ret H.
    + inv_valid H. do 3 (split; [done|]). exists []. simpl.
      rewrite app_nil_r. repeat split; [apply prefix_nil|done].
Qed.

Lemma callFunction_inv ev v inputs w r w' :
  callFunction ev v inputs w = (r, w') →
  (readAll (heap w) inputs = None ∧ r = Fail Panic ∧ w' = w)
  ∨ (∃ args, readAll (heap w) inputs = Some args ∧
       r = Ok (Call v (heap w) args).2 ∧
       w' = log (ev args) (set_heap (λ _, (Call v (heap w) args).1) w)).
Proof.
  unfold callFunction. intros H. msimpl H. inv_bind H.
  - inv_valid H0. right. exists a0. split; [done|].
    destruct (Call v (heap w) a0) as [h outputs] eqn:Hc.
    msimpl H. by inv_ret H.
  - inv_valid H. by left.
Qed.

Lemma setField_effect fields v i x w r w' :
  setField fields v i x w = (r, w') →
  tasks w' = tasks w ∧ values w' = values w ∧ latches w' = latches w ∧
  ∃ new, trace w' = trace w ++ new ∧ storesOf new = [] ∧ callsOf new = [] ∧
    initsOf new = [] ∧ dosOf new = [] ∧ setsOf new = [].
Proof.
  unfold setField. intros H. msimpl H. rename w into w0.
  assert (Hnil : w' = w0 → tasks w' = tasks w0 ∧ values w' = values w0 ∧
    latches w' = latches w0 ∧
    ∃ new, trace w' = trace w0 ++ new ∧ storesOf new = [] ∧ callsOf new = [] ∧
      initsOf new = [] ∧ dosOf new = [] ∧ setsOf new = []).
  { intros ->. do 3 (split; [done|]). exists []. by rewrite app_nil_r. }
  destruct v; try (inv_ret H; by apply Hnil).
  destruct (heap w0 !! a) as [[]|]; try (inv_ret H; by apply Hnil).
  case_decide; try (inv_ret H; by apply Hnil).
  inv_bind H; [|inv_valid H; by apply Hnil].
  inv_valid H1.
  match type of H with
  | context [field_Exported ?f] => destruct (field_Exported f)
  end; [|inv_ret H; by apply Hnil].
  inv_bind H.
  - inv_valid H1. inv_ret H. do 3 (split; [done|]). by eexists [_].
  - inv_valid H. by apply Hnil.
Qed.

Lemma setFields_effect fields v providedFields w r w' :
  setFields fields v providedFields w = (r, w') →
  tasks w' = tasks w ∧ values w' = values w ∧ latches w' = latches w ∧
  ∃ new, trace w' = trace w ++ new ∧ storesOf new = [] ∧ callsOf new = [] ∧
    initsOf new = [] ∧ dosOf new = [] ∧ setsOf new = [].
Proof.
  revert w. induction providedFields as [|field rest IH]; intros w H; simpl in H.
  - inv_ret H. do 3 (split; [done|]). exists []. by rewrite app_nil_r.
  - msimpl H. inv_bind H.
    + apply setField_effect in H0 as (Ht & Hv & Hl & new & Htr & ? & ? & ? & ? & ?).
      apply IH in H as (Ht' & Hv' & Hl' & new' & Htr' & ? & ? & ? & ? & ?).
      rewrite Ht', Hv', Hl', Htr', Htr, <-app_assoc. do 3 (split; [done|]).
      exists (new ++ new').
      rewrite storesOf_app, callsOf_app, initsOf_app, dosOf_app, setsOf_app.
      by repeat match goal with H : _ = [] |- _ => rewrite H; clear H end.
    + apply setField_effect in H as (? & ? & ? & new & ? & ? & ? & ? & ? & ?).
      do 3 (split; [done|]). by exists new.
Qed.

Lemma firstError_inv outputs w r w' : firstError outputs w = (r, w') → w' = w.
Proof.
  induction outputs as [|o rest IH]; simpl; intros H; [by inv_ret H|].
  destruct (IsNil o); simpl in H; [by apply IH|by inv_ret H].
Qed.

Lemma effect_nop c w f :
  match c with
  | customDo l _ _ _ => latches w !! l = None ∧ f = Panic
  | autoNew _ _ => False
  | _ => True
  end →
  effect c w (Fail f) w.
Proof.
  intros Hc. split; [done|]. exists []. rewrite app_nil_r.
  repeat split; try done. destruct c; simpl.
  - destruct Hc as [-> ->]. done.
  - done.
  - repeat split; try done. apply prefix_nil.
  - done.
Qed.

Lemma run_customDo_effect l v ins outs w r w' :
  run_customDo l v ins outs w = (r, w') → effect (customDo l v ins outs) w r w'.
Proof.
  unfold run_customDo. intros H. msimpl H. inv_bind H.
  - inv_valid H0. rename H1 into Hl. destruct a0.
    + inv_ret H. split; [done|]. exists []. rewrite app_nil_r.
      repeat split; try done. simpl. by rewrite Hl.
    + msimpl H. inv_bind H.
      * apply callFunction_inv in H0 as [(? & ? & ?)|(args & Hargs & ? & ?)];
          [done|]. simplify_eq/=.
        apply storeOutputs_effect in H
          as (Ht & Hla & Hh & stored & Htr & Hv & Hpre & Hall).
        simpl in *. split; [done|].
        exists (EvCall l args :: logStores stored).
        rewrite Htr, <-app_assoc. simpl.
        rewrite storesOf_logStores, dosOf_logStores, setsOf_logStores,
          callsOf_logStores, initsOf_logStores, Hl.
        repeat split; try done.
        intros ? Hwt Hlen. apply Hall; [done|]. rewrite Hwt. simpl. done.
      * apply callFunction_inv in H as [(? & ? & ?)|(args & Hargs & ? & ?)];
          [|done]. simplify_eq/=.
        split; [done|]. exists []. rewrite app_nil_r. simpl. rewrite Hl.
        repeat split; try done; apply prefix_nil.
  - inv_valid H. by apply effect_nop.
Qed.

Lemma run_autoNew_effect U typ elem w r w' :
  run_autoNew U typ elem w = (r, w') → effect (autoNew typ elem) w r w'.
Proof.
  unfold run_autoNew, store. intros H. msimpl H. inv_ret H.
  split; [done|]. by eexists [_].
Qed.

Lemma run_autoDeref_effect U typ ptrTo w r w' :
  run_autoDeref U typ ptrTo w = (r, w') → effect (autoDeref typ ptrTo) w r w'.
Proof.
  unfold run_autoDeref, store. intros H. msimpl H. inv_bind H.
  - inv_valid H0. destruct a0; try (inv_ret H; by apply effect_nop).
    inv_bind H.
    + inv_valid H0. inv_ret H. split; [done|]. by eexists [_].
    + inv_valid H. by apply effect_nop.
  - inv_valid H. by apply effect_nop.
Qed.

Lemma run_autoDo_effect U typ providedFields hasInitFn initFnVal ins w r w' :
  run_autoDo U typ providedFields hasInitFn initFnVal ins w = (r, w') →
  effect (autoDo typ providedFields hasInitFn initFnVal ins) w r w'.
Proof.
  unfold run_autoDo. intros H. msimpl H. inv_bind H.
  - assert (tasks w0 = tasks w ∧ values w0 = values w ∧ latches w0 = latches w ∧
      (0 < length providedFields → is_Some (values w !! typ)) ∧
      ∃ new, trace w0 = trace w ++ new ∧ storesOf new = [] ∧ callsOf new = [] ∧
        initsOf new = [] ∧ dosOf new = [] ∧ setsOf new = [])
      as (Ht & Hv & Hl & Hval & new & Htr & ? & ? & ? & ? & ?).
    { case_decide.
      - inv_bind H0; inv_valid H2.
        assert (is_Some (values w !! typ)) as Hsome.
        { destruct (values w !! typ) eqn:E; [eauto|]. simplify_option_eq. }
        apply setFields_effect in H0 as (? & ? & ? & ?). eauto 10.
      - inv_ret H0. do 3 (split; [done|]). split; [lia|].
        exists []. by rewrite app_nil_r. }
    clear H0. destruct hasInitFn.
    + msimpl H. inv_bind H.
      * inv_valid H0. inv_bind H.
        -- apply callFunction_inv in H0 as [(? & ? & ?)|(args & Hargs & ? & ?)];
             [done|]. simplify_eq/=.
           apply firstError_inv in H as ->. simpl. split; [done|].
           exists (new ++ [EvInit typ args]).
           rewrite storesOf_app, callsOf_app, initsOf_app, dosOf_app, setsOf_app.
           simpl. rewrite Htr, <-app_assoc.
           repeat match goal with H : _ = [] |- _ => rewrite H; clear H end.
           simpl. repeat split; try done.
           intros _ _. destruct (values w !! typ); [eauto|done].
        -- apply callFunction_inv in H as [(? & ? & ?)|(args & Hargs & ? & ?)];
             [|done]. simplify_eq/=.
           split; [done|]. exists new.
           repeat match goal with H : _ = [] |- _ => rewrite H; clear H end.
           repeat split; try done. apply prefix_nil.
      * inv_valid H. split; [done|]. exists new.
        repeat match goal with H : _ = [] |- _ => rewrite H; clear H end.
        repeat split; try done. apply prefix_nil.
    + inv_ret H. split; [done|]. exists new.
      repeat match goal with H : _ = [] |- _ => rewrite H; clear H end.
      repeat split; try done; [apply prefix_nil|].
      intros _ [?|?]; [eauto|done].
  - assert (tasks w' = tasks w ∧ values w' = values w ∧ latches w' = latches w ∧
      ∃ new, trace w' = trace w ++ new ∧ storesOf new = [] ∧ callsOf new = [] ∧
        initsOf new = [] ∧ dosOf new = [] ∧ setsOf new = [])
      as (Ht & Hv & Hl & new & Htr & ? & ? & ? & ? & ?).
    { case_decide. 2:{ by inv_ret H. } inv_bind H.
      - inv_valid H1. apply setFields_effect in H as (? & ? & ? & ?). eauto 10.
      - inv_valid H. do 3 (split; [done|]). exists []. by rewrite app_nil_r. }
    split; [done|]. exists new.
    repeat match goal with H : _ = [] |- _ => rewrite H; clear H end.
    repeat split; try done. apply prefix_nil.
Qed.

Lemma run_effect U c w r w' : run U c w = (r, w') → effect c w r w'.
Proof.
  destruct c; simpl.
  - apply run_customDo_effect.
  - apply run_autoNew_effect.
  - apply run_autoDo_effect.
  - apply run_autoDeref_effect.
Qed.

Lemma Provider_state_inv U t w r w' :
  Provider_state U t w = (r, w') →
  (∃ s, tasks w !! t = Some s ∧ r = Ok s ∧ w' = w)
  ∨ (tasks w !! t = None ∧
     ∃ init, autoProvide U (task_Type t) = inl init ∧
       w' = install (task_Type t) init w ∧
       ∃ s, tasks w' !! t = Some s ∧ r = Ok s)
  ∨ (tasks w !! t = None ∧
     ∃ err, autoProvide U (task_Type t) = inr err ∧
       r = Fail (Error (VErr err)) ∧ w' = w).
Proof.
  unfold Provider_state. intros H. msimpl H.
  destruct (tasks w !! t) as [s|] eqn:Ht.
  - inv_ret H. left. eauto.
  - right. destruct (autoProvide U (task_Type t)) as [init|err] eqn:Ha.
    + left. split; [done|]. exists init. split; [done|]. msimpl H. inv_ret H.
      split; [done|]. destruct t as [typ []]; simpl.
      * rewrite lookup_insert_eq. eauto.
      * rewrite lookup_insert_ne, lookup_insert_eq by done. eauto.
    + right. inv_ret H. eauto.
Qed.

Lemma install_extends typ init w :
  pairs w → tasks w !! Task typ false = None → extends w (install typ init w).
Proof.
  intros Hp Hf t s Ht. simpl.
  assert (tasks w !! Task typ true = None) as Ht'.
  { apply eq_None_not_Some. intros Hs%Hp. rewrite Hf in Hs. by destruct Hs. }
  rewrite !lookup_insert_ne; [done|congruence..].
Qed.

Lemma pairs_absent w t :
  pairs w → tasks w !! t = None →
  tasks w !! Task (task_Type t) false = None ∧
  tasks w !! Task (task_Type t) true = None.
Proof.
  intros Hp Ht. destruct t as [typ []]; simpl; split; try done.
  - apply eq_None_not_Some. intros Hs%Hp. rewrite Ht in Hs. by destruct Hs.
  - apply eq_None_not_Some. intros Hs%Hp. rewrite Ht in Hs. by destruct Hs.
Qed.

Lemma extends_refl w : extends w w.
Proof. by intros ??. Qed.
Lemma extends_trans w1 w2 w3 : extends w1 w2 → extends w2 w3 → extends w1 w3.
Proof. intros H1 H2 ???. eauto. Qed.
Lemma extends_isDone w w' t : extends w w' → isDone w t → isDone w' t.
Proof. intros He (s & ? & ?). exists s. eauto. Qed.
Lemma extends_notStarted w w' t : extends w w' → notStarted w t → notStarted w' t.
Proof. intros He (s & ? & ?). exists s. eauto. Qed.

(** ** A proof rule for the scheduler

    [I w stack newlyDone] is to hold whenever the loop of [do] is at its
    head; [E w] is what is left of it when a call fails.  The hypotheses
    are the elementary changes the package makes to a Provider; the
    lemmas carry [I] through [do], [complete], [Provide], [AddRule] and a
    whole lifetime. *)
Section Preservation.
Variable U : Universe.
Variable I : world → list task → list task → Prop.
Variable E : world → Prop.
Variable admissible : Function → Prop.

Hypothesis I_pairs : ∀ w st nd, I w st nd → pairs w.
Hypothesis I_E : ∀ w st nd, I w st nd → E w.
Hypothesis I_install : ∀ w st nd typ init,
  I w st nd →
  tasks w !! Task typ false = None → tasks w !! Task typ true = None →
  autoProvide U typ = inl init →
  I (install typ init w) st nd.
Hypothesis I_mark : ∀ w st nd t s pushed,
  I w st nd → last st = Some t → tasks w !! t = Some s →
  Done s = false → InProgress s = false →
  (∀ d, d ∈ DependsOn s → isDone w d ∨ d ∈ pushed) →
  (∀ d, d ∈ pushed → d ∈ DependsOn s ∧ notStarted w d) →
  I (set_tasks <[t := State false true (DependsOn s) (Do s)]> w) (st ++ pushed) nd.
Hypothesis I_run : ∀ w st nd t s c r w',
  I w st nd → last st = Some t → tasks w !! t = Some s →
  Done s = false → InProgress s = true → Do s = Some c →
  run U c (log (EvDo t) w) = (r, w') →
  match r with
  | Ok _ => I (set_tasks <[t := State true true [] None]> w') (removelast st) (nd ++ [t])
  | Fail _ => E w'
  end.
Hypothesis I_skip : ∀ w st nd t s,
  I w st nd → last st = Some t → tasks w !! t = Some s →
  Done s = false → InProgress s = true → Do s = None →
  I (set_tasks <[t := State true true [] None]> w) (removelast st) nd.
Hypothesis I_pop : ∀ w st nd t s,
  I w st nd → last st = Some t → tasks w !! t = Some s → Done s = true →
  I w (removelast st) nd.

Lemma state_inv t w st nd r w' :
  I w st nd → Provider_state U t w = (r, w') →
  match r with
  | Ok s => I w' st nd ∧ extends w w' ∧ tasks w' !! t = Some s
  | Fail _ => E w'
  end.
Proof.
  intros HI [(s & Hs & -> & ->)|[(Ht & init & Ha & -> & s & Hs & ->)
                                |(Ht & err & Ha & -> & ->)]]%Provider_state_inv.
  - split; [done|]. split; [apply extends_refl|done].
  - destruct (pairs_absent w t) as [Hf Hc]; eauto.
    split; [eauto|]. split; [|done]. apply install_extends; eauto.
  - eauto.
Qed.

Lemma scheduleDeps_inv t deps st0 nd pushed hasDeps w r w' :
  I w st0 nd →
  (∀ d, d ∈ pushed → notStarted w d) →
  scheduleDeps U t deps (st0 ++ pushed) hasDeps w = (r, w') →
  match r with
  | Ok p =>
      ∃ pushed',
        p.1 = st0 ++ pushed ++ pushed' ∧ I w' st0 nd ∧ extends w w' ∧
        (∀ d, d ∈ deps → isDone w' d ∨ d ∈ pushed') ∧
        (∀ d, d ∈ pushed' → d ∈ deps) ∧
        (∀ d, d ∈ pushed ++ pushed' → notStarted w' d) ∧
        (p.2 = false → hasDeps = false ∧ pushed' = [])
  | Fail _ => E w'
  end.
Proof.
  revert pushed hasDeps w.
  induction deps as [|dep rest IH]; intros pushed hasDeps w HI Hns H; simpl in H.
  - inv_ret H. exists []. rewrite !app_nil_r. simpl.
    split_and!; eauto using extends_refl; by intros d ?%elem_of_nil.
  - inv_bind H.
    + pose proof (state_inv _ _ _ _ _ _ HI H0) as (HI1 & Hext & Hdep).
      simpl in Hdep. destruct (Done a) eqn:Hdone; [|destruct (InProgress a) eqn:Hip].
      * apply IH in H; [|done|eauto using extends_notStarted].
        destruct r as [p|]; [|done].
        destruct H as (pushed' & ? & ? & Hext' & Hd & Hp & Hn & Hh).
        exists pushed'. split_and!; eauto using extends_trans.
        -- intros d [->|Hin]%elem_of_cons; [|eauto].
           left. eapply extends_isDone; [done|]. by exists a.
        -- intros d ?. apply elem_of_cons. eauto.
      * unfold cycleError in H. inv_ret H. eauto.
      * rewrite <-app_assoc in H. apply IH in H; [|done|].
        2:{ intros d [?| ->%list_elem_of_singleton]%elem_of_app;
              [eauto using extends_notStarted|]. by exists a. }
        destruct r as [p|]; [|done].
        destruct H as (pushed' & Hst & ? & Hext' & Hd & Hp & Hn & Hh).
        exists (dep :: pushed'). rewrite <-app_assoc in Hst, Hn. simpl in *.
        split_and!; eauto using extends_trans.
        -- intros d [->|Hin]%elem_of_cons; [right; left|].
           destruct (Hd d Hin); [by left|right; by right].
        -- intros d [->|Hin]%elem_of_cons; [left|right; eauto].
        -- intros Hf. by destruct (Hh Hf).
    + pose proof (state_inv _ _ _ _ _ _ HI H) as HE. done.
Qed.

Lemma finishTask_inv t s st nd w r w' :
  I w st nd → last st = Some t → tasks w !! t = Some s →
  Done s = true ∨ InProgress s = true →
  finishTask U t s st nd w = (r, w') →
  match r with
  | Ok p => I w' p.1 p.2
  | Fail _ => E w'
  end.
Proof.
  intros HI Hlast Hs Hor H. unfold finishTask in H.
  destruct (Done s) eqn:Hdone; simpl in H.
  { inv_ret H. eauto. }
  destruct Hor as [?|Hip]; [done|]. rewrite Hip in H. simpl in H.
  destruct (Do s) as [doFn|] eqn:Hdo.
  - inv_bind H.
    + msimpl H0. inv_bind H0. inv_ret H0. msimpl H. inv_ret H.
      by pose proof (I_run _ _ _ _ _ _ _ _ HI Hlast Hs Hdone Hip Hdo H1).
    + msimpl H. inv_bind H; [by inv_ret H|].
      by pose proof (I_run _ _ _ _ _ _ _ _ HI Hlast Hs Hdone Hip Hdo H).
  - msimpl H. inv_ret H. eauto.
Qed.

Lemma doStep_inv t st nd w r w' :
  I w st nd → last st = Some t →
  doStep U t st nd w = (r, w') →
  match r with
  | Ok p => I w' p.1 p.2
  | Fail _ => E w'
  end.
Proof.
  intros HI Hlast H. unfold doStep in H. inv_bind H.
  2:{ by pose proof (state_inv _ _ _ _ _ _ HI H) as HE. }
  pose proof (state_inv _ _ _ _ _ _ HI H0) as (HI1 & Hext & Hs). clear H0.
  rename a into s.
  destruct (Done s) eqn:Hdone; simpl in H.
  { eapply finishTask_inv; eauto. }
  destruct (InProgress s) eqn:Hip; simpl in H.
  { eapply finishTask_inv; eauto. }
  inv_bind H.
  2:{ rewrite <-(app_nil_r st) in H.
      eapply scheduleDeps_inv in H; eauto. by intros d ?%elem_of_nil. }
  rewrite <-(app_nil_r st) in H0.
  eapply scheduleDeps_inv in H0; eauto; [|by intros d ?%elem_of_nil].
  destruct H0 as (pushed & Hst & HI2 & Hext2 & Hd & Hp & Hn & Hh).
  destruct a as [st' hasDeps]. simpl in *. subst st'.
  msimpl H.
  assert (I (set_tasks <[t:=State false true (DependsOn s) (Do s)]> w1)
            (st ++ pushed) nd) as HI3.
  { eapply I_mark; eauto. }
  destruct hasDeps.
  - inv_ret H. done.
  - destruct Hh as [_ ->]; [done|]. rewrite app_nil_r in *.
    eapply finishTask_inv in H; eauto.
    simpl. by rewrite lookup_insert_eq.
Qed.

Lemma doLoop_inv fuel st nd w r w' :
  I w st nd →
  doLoop U fuel st nd w = (r, w') →
  match r with
  | Ok nd' => I w' [] nd'
  | Fail _ => E w'
  end.
Proof.
  revert st nd w. induction fuel as [|fuel IH]; intros st nd w HI H; simpl in H.
  - destruct (last st) eqn:Hlast.
    + inv_ret H. eauto.
    + inv_ret H. apply last_None in Hlast as ->. done.
  - destruct (last st) eqn:Hlast.
    + inv_bind H.
      * eapply doStep_inv in H0; eauto. eapply IH; eauto.
      * eapply doStep_inv in H; eauto.
    + inv_ret H. apply last_None in Hlast as ->. done.
Qed.

Hypothesis I_start : ∀ w nd t, I w [] nd → I w [t] [].
Hypothesis I_addrule : ∀ w nd v r w',
  I w [] nd → admissible v → AddRule U (FuncValue v) w = (r, w') →
  match r with
  | Ok _ => I w' [] nd
  | Fail _ => E w'
  end.
Hypothesis I_set : ∀ w nd typ a v x,
  I w [] nd → values w !! typ = Some v → read (heap w) v = Some x →
  I (log (EvSet typ a v x) (set_heap <[a := x]> w)) [] nd.

Lemma do_inv fuel t w r w' :
  idle I w → Provider_do U fuel t w = (r, w') →
  match r with
  | Ok nd => I w' [] nd
  | Fail _ => E w'
  end.
Proof. intros [nd HI] H. eapply doLoop_inv; [|exact H]. by eapply I_start. Qed.

Lemma completeLoop_inv fuel goals i w r w' :
  idle I w → completeLoop U fuel goals i w = (r, w') →
  E w' ∧ (r = Ok tt → idle I w').
Proof.
  revert goals i w. induction fuel as [|fuel IH]; intros goals i w Hw H;
    simpl in H; destruct (goals !! i) as [goal|].
  - inv_ret H. split; [destruct Hw; eauto|done].
  - inv_ret H. split; [destruct Hw; eauto|done].
  - inv_bind H.
    + eapply do_inv in H0; [|done]. eapply IH; [|done]. by eexists.
    + eapply do_inv in H; [|done]. done.
  - inv_ret H. split; [destruct Hw; eauto|done].
Qed.

Lemma Provide_inv fuel ptrs w r w' :
  idle I w → Provide U fuel ptrs w = (r, w') →
  E w' ∧ (r = Ok tt → idle I w').
Proof.
  revert w. induction ptrs as [|ptr rest IH]; intros w Hw H; simpl in H.
  - inv_ret H. split; [destruct Hw; eauto|done].
  - destruct ptr as [|t|t a]; try (inv_ret H; split; [destruct Hw; eauto|done]).
    destruct (isErrorType U t); [inv_ret H; split; [destruct Hw; eauto|done]|].
    inv_bind H.
    + apply completeLoop_inv in H0 as [_ Hw1]; [|done].
      destruct a0. specialize (Hw1 eq_refl). msimpl H.
      destruct (values w0 !! t) as [v|] eqn:Hv.
      * inv_bind H.
        -- match goal with Hx : valid _ _ = _ |- _ => inv_valid_in Hx end.
           msimpl H. apply IH in H; [done|].
           destruct Hw1 as [nd ?]. exists nd. by apply I_set.
        -- inv_valid H. split; [destruct Hw1; eauto|done].
      * inv_ret H. split; [destruct Hw1; eauto|done].
    + apply completeLoop_inv in H as [? _]; done.
Qed.

Lemma perform_inv fuel c w r w' :
  idle I w → admissibleCall admissible c → perform U fuel c w = (r, w') →
  E w' ∧ (r = Ok tt → idle I w').
Proof.
  intros Hw Hc H. destruct c as [[v| |]|ptrs]; simpl in *.
  - destruct Hw as [nd HI]. eapply I_addrule in H; eauto.
    destruct r as [[]|]; [|done]. split; [eauto|]. intros _. by exists nd.
  - unfold AddRule, customProvide, errors_New in H. msimpl H. inv_ret H.
    split; [destruct Hw; eauto|done].
  - unfold AddRule, customProvide in H. msimpl H. inv_ret H.
    split; [destruct Hw; eauto|done].
  - by eapply Provide_inv.
Qed.

Lemma lifetime_inv fuel calls w r w' :
  idle I w → Forall (admissibleCall admissible) calls → lifetime U fuel calls w = (r, w') →
  E w' ∧ (r = Ok tt → idle I w').
Proof.
  revert w. induction calls as [|c rest IH]; intros w Hw Hc H; simpl in H.
  - inv_ret H. split; [destruct Hw; eauto|done].
  - apply Forall_cons in Hc as [Hc Hrest]. inv_bind H.
    + eapply perform_inv in H0 as [_ Hw1]; [|done..].
      destruct a. eapply (IH w0); eauto.
    + eapply perform_inv in H as [? _]; done.
Qed.

Lemma all_inv :
  (∀ fuel calls w r w',
     idle I w → Forall (admissibleCall admissible) calls → lifetime U fuel calls w = (r, w') →
     E w' ∧ (r = Ok tt → idle I w')) ∧
  (∀ fuel goals i w r w',
     idle I w → completeLoop U fuel goals i w = (r, w') →
     E w' ∧ (r = Ok tt → idle I w')).
Proof. split; [apply lifetime_inv|apply completeLoop_inv]. Qed.
End Preservation.

(** ** What [AddRule] and [autoProvide] install *)

Lemma customInitializers_types deps doFn outs :
  init_Type <$> customInitializers deps doFn outs = nonErr outs.
Proof.
  induction outs as [|out outs IH]; [done|].
  simpl customInitializers. rewrite nonErr_cons.
  destruct (output_IsErr out); [done|]. by rewrite fmap_cons, IH.
Qed.

Lemma customInitializers_elem deps doFn outs init :
  init ∈ customInitializers deps doFn outs →
  init_Type init ∈ nonErr outs ∧
  Partial init = State false false deps (Some doFn) ∧
  Complete init = State false false [Task (init_Type init) false] None.
Proof.
  induction outs as [|out outs IH]; simpl; [by intros ?%elem_of_nil|].
  rewrite nonErr_cons. destruct (output_IsErr out).
  - done.
  - intros [->|Hin]%elem_of_cons; simpl.
    + split; [left|done].
    + destruct (IH Hin) as (? & ? & ?). split; [by right|done].
Qed.

Lemma installInitializers_inv inits w r w' :
  installInitializers inits w = (r, w') →
  values w' = values w ∧ heap w' = heap w ∧ latches w' = latches w ∧
  trace w' = trace w ∧ extends w w' ∧ (pairs w → pairs w') ∧
  (∀ t s, tasks w' !! t = Some s →
     tasks w !! t = Some s
     ∨ ∃ init, init ∈ inits ∧
         ((t = Task (init_Type init) false ∧ s = Partial init)
          ∨ (t = Task (init_Type init) true ∧ s = Complete init))) ∧
  (r = Ok tt →
     NoDup (init_Type <$> inits) ∧
     ∀ init, init ∈ inits →
       tasks w !! Task (init_Type init) false = None ∧
       tasks w !! Task (init_Type init) true = None ∧
       tasks w' !! Task (init_Type init) false = Some (Partial init) ∧
       tasks w' !! Task (init_Type init) true = Some (Complete init)).
Proof.
  revert w. induction inits as [|init rest IH]; intros w H; simpl in H.
  - inv_ret H. split_and!; eauto using extends_refl.
    intros _. split; [constructor|]. by intros ? ?%elem_of_nil.
  - msimpl H. case_bool_decide as Hf.
    { inv_ret H. split_and!; eauto using extends_refl. done. }
    case_bool_decide as Hc.
    { inv_ret H. split_and!; eauto using extends_refl. done. }
    apply eq_None_not_Some in Hf, Hc. msimpl H.
    apply IH in H as (Hv & Hh & Hl & Htr & Hext & Hp & Hold & Hok). simpl in *.
    assert (extends w (set_tasks <[Task (init_Type init) true := Complete init]>
        (set_tasks <[Task (init_Type init) false := Partial init]> w))) as Hext0.
    { intros t s Hs. simpl. rewrite !lookup_insert_ne; [done|congruence..]. }
    split_and!; try done.
    + eauto using extends_trans.
    + intros Hw. apply Hp. intros typ. simpl.
      destruct (decide (typ = init_Type init)) as [->|Hne].
      * rewrite lookup_insert_ne, !lookup_insert_eq by done. split; eauto.
      * rewrite !lookup_insert_ne by congruence. apply Hw.
    + intros t s [Hs|(i & Hi & Hcase)]%Hold.
      * simpl in Hs. rewrite lookup_insert in Hs. case_decide; simplify_eq.
        { right. exists init. split; [left|]. by right. }
        rewrite lookup_insert in Hs. case_decide; simplify_eq.
        { right. exists init. split; [left|]. by left. }
        by left.
      * right. exists i. split; [by right|done].
    + intros Hr. destruct (Hok Hr) as [Hnd Hall]. simpl.
      assert (init_Type init ∉ init_Type <$> rest) as Hnotin.
      { intros (i & Heq & Hi)%list_elem_of_fmap.
        destruct (Hall i Hi) as (Hif & _). simpl in Hif.
        rewrite <-Heq, lookup_insert_ne, lookup_insert_eq in Hif by done. done. }
      split; [by constructor|].
      intros i [->|Hi]%elem_of_cons.
      * split_and!; try done.
        -- apply Hext. simpl. by rewrite lookup_insert_ne, lookup_insert_eq.
        -- apply Hext. simpl. by rewrite lookup_insert_eq.
      * destruct (Hall i Hi) as (Hif & Hic & ? & ?). simpl in Hif, Hic.
        assert (init_Type i ≠ init_Type init) as Hne.
        { intros Heq. apply Hnotin. rewrite <-Heq. by apply list_elem_of_fmap_2. }
        rewrite !lookup_insert_ne in Hif, Hic by congruence. done.
Qed.

Lemma AddRule_inv U v w r w' :
  AddRule U (FuncValue v) w = (r, w') →
  let l := length (latches w) in
  let outs := mkOutput U <$> Out v in
  let doFn := customDo l v (In v) outs in
  let inits := customInitializers ((λ t, Task t true) <$> In v) doFn outs in
  values w' = values w ∧ heap w' = heap w ∧ latches w' = latches w ++ [false] ∧
  trace w' = trace w ∧ extends w w' ∧ (pairs w → pairs w') ∧
  (∀ t s, tasks w' !! t = Some s →
     tasks w !! t = Some s
     ∨ ∃ init, init ∈ inits ∧
         ((t = Task (init_Type init) false ∧ s = Partial init)
          ∨ (t = Task (init_Type init) true ∧ s = Complete init))) ∧
  (r = Ok tt →
     NoDup (nonErr outs) ∧
     ∀ init, init ∈ inits →
       tasks w !! Task (init_Type init) false = None ∧
       tasks w !! Task (init_Type init) true = None ∧
       tasks w' !! Task (init_Type init) false = Some (Partial init) ∧
       tasks w' !! Task (init_Type init) true = Some (Complete init)).
Proof.
  unfold AddRule, customProvide. intros H. msimpl H.
  apply installInitializers_inv in H
    as (Hv & Hh & Hl & Htr & Hext & Hp & Hold & Hok).
  simpl in *. split_and!; try done.
  intros Hr. destruct (Hok Hr) as [Hnd Hall].
  by rewrite customInitializers_types in Hnd.
Qed.

(** ** The shape of the TaskStore *)

Lemma autoProvide_shape U typ init w :
  autoProvide U typ = inl init →
  Done (Partial init) = false ∧ InProgress (Partial init) = false ∧
  Done (Complete init) = false ∧ InProgress (Complete init) = false ∧
  pendingShape w (Task typ false) (Partial init) ∧
  pendingShape w (Task typ true) (Complete init).
Proof.
  unfold autoProvide.
  destruct (Kind U typ); try (intros [= <-]; by simpl).
  destruct (if bool_decide (Kind U (Elem U typ) = reflect.Struct) then _ else _)
    as [providedFields|]; [|done].
  destruct (match PleaseProvide U typ with Some f => _ | None => None end); [done|].
  case_match eqn:Hnone; [done|].
  intros [= <-]. simpl. split_and!; try done.
  unfold pendingShape. simpl. split; [done|].
  apply andb_false_iff in Hnone as [Hn|Hn].
  - left. apply bool_decide_eq_false in Hn. lia.
  - right. by apply negb_false_iff in Hn.
Qed.

Lemma effect_tasks c w r w' : effect c w r w' → tasks w' = tasks w.
Proof. by intros [? _]. Qed.

Lemma effect_latches c w r w' :
  effect c w r w' →
  length (latches w') = length (latches w) ∧
  (∀ l, latches w' !! l = Some false → latches w !! l = Some false) ∧
  (∀ l, latches w !! l = Some true → latches w' !! l = Some true) ∧
  (∀ l v ins outs, c = customDo l v ins outs → latches w' !! l ≠ Some false).
Proof.
  intros (_ & new & _ & _ & _ & _ & Hc). destruct c.
  - destruct Hc as [_ Hc].
    destruct (latches w !! alreadyDone) as [[]|] eqn:Hl.
    + destruct Hc as [-> _]. split_and!; try done.
      intros ???? [= <- _ _ _]. by rewrite Hl.
    + destruct Hc as (-> & _). rewrite length_insert. split_and!; try done.
      * intros l. rewrite list_lookup_insert. case_decide; [done|]. tauto.
      * intros l Hl'. rewrite list_lookup_insert_ne; [done|]. congruence.
      * intros ???? [= <- _ _ _].
        rewrite list_lookup_insert_eq; [done|by eapply lookup_lt_Some].
    + destruct Hc as [-> _]. split_and!; try done.
      intros ???? [= <- _ _ _]. by rewrite Hl.
  - destruct Hc as (_ & -> & _). done.
  - destruct Hc as (-> & _). done.
  - destruct Hc as (-> & _). done.
Qed.

Lemma shape_sim w w' :
  shape w →
  (∀ t s', tasks w' !! t = Some s' → Done s' = false →
     ∃ s, tasks w !! t = Some s ∧ Done s = false ∧ Do s = Do s' ∧
          DependsOn s = DependsOn s') →
  length (latches w) ≤ length (latches w') →
  (∀ l v ins outs typ s,
     latches w' !! l = Some false →
     tasks w !! Task typ false = Some s → Done s = false →
     Do s = Some (customDo l v ins outs) →
     latches w !! l = Some false ∧
     ∃ s', tasks w' !! Task typ false = Some s' ∧ Done s' = false ∧ Do s' = Do s) →
  shape w'.
Proof.
  intros Hsh Hpend Hlen Hsib t s' Hs' Hd'.
  destruct (Hpend t s' Hs' Hd') as (s & Hs & Hd & Hdo & Hdeps).
  pose proof (Hsh t s Hs Hd) as Hp. unfold pendingShape in *.
  rewrite <-Hdo, <-Hdeps. destruct t as [typ []]; simpl in *; [done|].
  destruct (Do s) as [[l v ins outs| | |]|] eqn:Hc; try done.
  destruct Hp as (Hl & Hin & Hnd & Hlo & Hall). split_and!; try done; [lia|].
  intros Hf typ2 Hin2.
  destruct (Hsib _ _ _ _ _ _ Hf Hs Hd Hc) as [Hf0 _].
  destruct (Hall Hf0 typ2 Hin2) as (s2 & Hs2 & Hd2 & Hdo2).
  destruct (Hsib _ _ _ _ _ _ Hf Hs2 Hd2 Hdo2) as [_ (s2' & ? & ? & ?)].
  exists s2'. split_and!; try done. congruence.
Qed.

Lemma pendingShape_extends w w' more t s :
  extends w w' → latches w' = latches w ++ more →
  pendingShape w t s → pendingShape w' t s.
Proof.
  intros Hext Hl. unfold pendingShape. destruct (task_Complete t); [done|].
  destruct (Do s) as [[l v ins outs| | |]|]; try done.
  intros (Hlt & ? & ? & ? & Hall). rewrite Hl, length_app.
  split_and!; try done; [lia|].
  rewrite lookup_app_l by done. intros Hf typ Hin.
  destruct (Hall Hf typ Hin) as (s' & ? & ? & ?). exists s'. eauto.
Qed.

Lemma shape_install U w typ init :
  pairs w → shape w →
  tasks w !! Task typ false = None →
  autoProvide U typ = inl init →
  shape (install typ init w).
Proof.
  intros Hp Hsh Hf Ha t s Hs Hd.
  pose proof (autoProvide_shape U typ init (install typ init w) Ha)
    as (_ & _ & _ & _ & Hpart & Hcomp).
  simpl in Hs. rewrite lookup_insert in Hs. case_decide; simplify_eq; [done|].
  rewrite lookup_insert in Hs. case_decide; simplify_eq; [done|].
  eapply (pendingShape_extends w _ []); eauto using install_extends.
  simpl. by rewrite app_nil_r.
Qed.

Lemma shape_mark w t s :
  shape w → tasks w !! t = Some s → Done s = false →
  shape (set_tasks <[t := State false true (DependsOn s) (Do s)]> w).
Proof.
  intros Hsh Hs Hd. eapply shape_sim; [done|..]; simpl.
  - intros t' s' Hs' Hd'. rewrite lookup_insert in Hs'.
    case_decide; simplify_eq; eauto.
  - done.
  - intros l v ins outs typ s1 Hf Hs1 Hd1 Hdo. split; [done|].
    rewrite lookup_insert. case_decide; simplify_eq; eauto.
Qed.

Lemma shape_done w w' t s :
  shape w → tasks w !! t = Some s → Done s = false →
  tasks w' = tasks w →
  length (latches w') = length (latches w) →
  (∀ l, latches w' !! l = Some false → latches w !! l = Some false) →
  (∀ l v ins outs, Do s = Some (customDo l v ins outs) →
     latches w' !! l ≠ Some false) →
  shape (set_tasks <[t := State true true [] None]> w').
Proof.
  intros Hsh Hs Hd Ht Hlen Hmono Hlatch. eapply shape_sim; [done|..]; simpl.
  - intros t' s' Hs' Hd'. rewrite lookup_insert in Hs'.
    case_decide; simplify_eq. rewrite Ht in Hs'. eauto.
  - lia.
  - intros l v ins outs typ s1 Hf Hs1 Hd1 Hdo. split; [eauto|].
    rewrite lookup_insert. case_decide; simplify_eq.
    + by destruct (Hlatch _ _ _ _ Hdo).
    + rewrite Ht. eauto.
Qed.

Lemma shape_run w w' t s c r :
  shape w → tasks w !! t = Some s → Done s = false → Do s = Some c →
  effect c (log (EvDo t) w) r w' →
  shape (set_tasks <[t := State true true [] None]> w').
Proof.
  intros Hsh Hs Hd Hdo Heff.
  pose proof (effect_tasks _ _ _ _ Heff) as Ht.
  pose proof (effect_latches _ _ _ _ Heff) as (Hlen & Hmono & _ & Hl).
  eapply shape_done; eauto. intros ???? ?. simplify_eq. eauto.
Qed.

Lemma shape_frame w w' :
  tasks w' = tasks w → latches w' = latches w → shape w → shape w'.
Proof.
  intros Ht Hl Hsh t s Hs Hd. rewrite Ht in Hs.
  eapply (pendingShape_extends w w' []); eauto.
  - intros ??. by rewrite Ht.
  - by rewrite app_nil_r.
Qed.

Lemma shape_addrule U v w w' :
  shape w → AddRule U (FuncValue v) w = (Ok tt, w') → shape w'.
Proof.
  intros Hsh H. apply AddRule_inv in H
    as (Hv & Hh & Hl & Htr & Hext & Hp & Hold & Hok).
  destruct (Hok eq_refl) as [Hnd Hall]. clear Hok.
  intros t s Hs Hd. destruct (Hold t s Hs) as [Hs0|(init & Hin & Hcase)].
  { eapply pendingShape_extends; eauto. }
  pose proof (customInitializers_elem _ _ _ _ Hin) as (Hty & Hpart & Hcomp).
  destruct Hcase as [[-> ->]|[-> ->]]; unfold pendingShape; simpl.
  - rewrite Hpart. simpl. rewrite Hl, length_app. simpl.
    split_and!; try done; [lia|by rewrite length_fmap|].
    intros _ typ Htyp.
    rewrite <-(customInitializers_types ((λ t, Task t true) <$> In v)
      (customDo (length (latches w)) v (In v) (mkOutput U <$> Out v))) in Htyp.
    apply list_elem_of_fmap in Htyp as (init2 & -> & Hin2).
    destruct (Hall init2 Hin2) as (_ & _ & Hs2 & _).
    pose proof (customInitializers_elem _ _ _ _ Hin2) as (_ & Hpart2 & _).
    eexists. split; [done|]. by rewrite Hpart2.
  - by rewrite Hcomp.
Qed.

(** ** [pairs] is kept by every change *)

Lemma pairs_dom w w' :
  (∀ t, is_Some (tasks w' !! t) ↔ is_Some (tasks w !! t)) → pairs w → pairs w'.
Proof. intros H Hp typ. rewrite !H. apply Hp. Qed.

Lemma pairs_update w w' t s s' :
  tasks w !! t = Some s → tasks w' = tasks w → pairs w →
  pairs (set_tasks <[t := s']> w').
Proof.
  intros Hs Ht. apply pairs_dom. intros t'. simpl.
  rewrite lookup_insert, Ht. case_decide; simplify_eq; [|done].
  rewrite Hs. split; eauto.
Qed.

Lemma pairs_install typ init w : pairs w → pairs (install typ init w).
Proof.
  intros Hp typ'. simpl. destruct (decide (typ' = typ)) as [->|Hne].
  - rewrite lookup_insert_ne, !lookup_insert_eq by done. split; eauto.
  - rewrite !lookup_insert_ne by congruence. apply Hp.
Qed.

Lemma pairs_frame w w' : tasks w' = tasks w → pairs w → pairs w'.
Proof. intros Ht. apply pairs_dom. intros t. by rewrite Ht. Qed.

Lemma pairs_fresh h : pairs (fresh h).
Proof. intros typ. simpl. by rewrite !lookup_empty. Qed.

(** ** A rule's function is called at most once *)

Lemma effect_calls c w r w' :
  effect c w r w' →
  ∃ new, trace w' = trace w ++ new ∧
    (callsOf new = []
     ∨ ∃ l, callsOf new = [l] ∧ latches w !! l = Some false ∧
            latches w' !! l = Some true).
Proof.
  intros (_ & new & Htr & _ & _ & _ & Hc). exists new. split; [done|].
  destruct c.
  - destruct Hc as [_ Hc]. destruct (latches w !! alreadyDone) as [[]|] eqn:Hl.
    + destruct Hc as [-> _]. left.
      apply (f_equal length) in Htr. rewrite length_app in Htr.
      destruct new; [done|simpl in *; lia].
    + destruct Hc as (Hl' & Hpre & _).
      destruct Hpre as [k Hk]. destruct (callsOf new) as [|x [|??]].
      * by left.
      * injection Hk as ->. right. exists x. split_and!; try done.
        rewrite Hl'. apply list_lookup_insert_eq. by eapply lookup_lt_Some.
      * apply (f_equal length) in Hk. simpl in Hk. lia.
    + destruct Hc as [-> _]. left.
      apply (f_equal length) in Htr. rewrite length_app in Htr.
      destruct new; [done|simpl in *; lia].
  - left. by destruct Hc as (_ & _ & ? & _).
  - left. by destruct Hc as (_ & ? & _).
  - left. by destruct Hc as (_ & ? & _).
Qed.

Lemma latched_effect c w r w' : latched w → effect c w r w' → latched w'.
Proof.
  intros [Hnd Hl] Heff.
  pose proof (effect_latches _ _ _ _ Heff) as (_ & _ & Htrue & Hc).
  destruct (effect_calls _ _ _ _ Heff)
    as (new & Htr & [Hnil|(l & Hnew & Hf & Ht)]).
  - split; rewrite Htr, callsOf_app, Hnil, app_nil_r; eauto.
  - assert (l ∉ callsOf (trace w)) as Hnotin.
    { intros Hin%Hl. congruence. }
    split; rewrite Htr, callsOf_app, Hnew.
    + apply NoDup_app. split_and!; [done| |apply NoDup_singleton].
      intros x Hx ->%list_elem_of_singleton. done.
    + intros x [Hx| ->%list_elem_of_singleton]%elem_of_app; eauto.
Qed.

Lemma latched_frame w w' more :
  callsOf (trace w') = callsOf (trace w) → latches w' = latches w ++ more →
  latched w → latched w'.
Proof.
  intros Htr Hl [Hnd Hall]. split; rewrite Htr; [done|].
  intros l Hin. rewrite Hl. apply lookup_app_l_Some. eauto.
Qed.

Lemma latched_lifetime U fuel h calls r w' :
  lifetime U fuel calls (fresh h) = (r, w') → latched w'.
Proof.
  intros H.
  eapply (lifetime_inv U (λ w _ _, pairs w ∧ latched w) latched (λ _, True))
    in H as [? _]; [done|..].
  - by intros ??? [? ?].
  - by intros ??? [? ?].
  - intros w _ _ typ init [Hp Hl] _ _ _. split; [by apply pairs_install|].
    eapply (latched_frame w _ []); eauto. by rewrite app_nil_r.
  - intros w _ _ t s _ [Hp Hl] _ Hs _ _ _ _. split; [by eapply pairs_update|].
    eapply (latched_frame w _ []); eauto. by rewrite app_nil_r.
  - intros w _ _ t s c r0 w0 [Hp Hl] _ Hs _ _ _ Hrun%run_effect.
    assert (latched w0) as Hl0.
    { eapply latched_effect; [|done].
      eapply (latched_frame w _ []); eauto; simpl.
      + rewrite callsOf_app. simpl. by rewrite app_nil_r.
      + by rewrite app_nil_r. }
    destruct r0; [|done]. split.
    + eapply pairs_update; eauto. by apply effect_tasks in Hrun.
    + eapply (latched_frame w0 _ []); eauto. by rewrite app_nil_r.
  - intros w _ _ t s [Hp Hl] _ Hs _ _ _. split; [by eapply pairs_update|].
    eapply (latched_frame w _ []); eauto. by rewrite app_nil_r.
  - by intros w _ _ _ _ ? _ _ _.
  - by intros w _ _ ?.
  - intros w _ v r0 w0 [Hp Hl] _ Hadd.
    apply AddRule_inv in Hadd as (Hv & Hh & Hla & Htr & Hext & Hpp & _ & _).
    assert (latched w0)
      by (eapply (latched_frame w w0 [false]); [by rewrite Htr|done|done]).
    destruct r0; [|done]. split; eauto.
  - intros w _ typ a v x [Hp Hl] _ _. split; [done|].
    eapply (latched_frame w _ []); eauto; simpl.
    + rewrite callsOf_app. simpl. by rewrite app_nil_r.
    + by rewrite app_nil_r.
  - exists []. split; [apply pairs_fresh|]. split; [constructor|].
    by intros ? ?%elem_of_nil.
  - apply Forall_forall. by intros [[| |]|] _.
Qed.

(** ** Every type is written once, every action runs once *)

Lemma prefix_NoDup {A} (l k : list A) : l `prefix_of` k → NoDup k → NoDup l.
Proof. intros [m ->] [? _]%NoDup_app. done. Qed.

Lemma prefix_elem {A} (l k : list A) x : l `prefix_of` k → x ∈ l → x ∈ k.
Proof. intros [m ->] ?. apply elem_of_app. by left. Qed.

Lemma prefix_singleton {A} (l : list A) x : l `prefix_of` [x] → l = [] ∨ l = [x].
Proof.
  intros [m Hm]. destruct l as [|y [|??]]; [by left| |].
  - injection Hm as -> _. by right.
  - apply (f_equal length) in Hm. simpl in Hm. lia.
Qed.

(** The writes of one run: to distinct types, none written before, each
    spent afterwards. *)
Lemma effect_fresh w t s c r w' :
  shape w →
  (∀ typ, typ ∈ (storesOf (trace w)).*1 → spent w typ) →
  tasks w !! t = Some s → Done s = false → Do s = Some c →
  effect c (log (EvDo t) w) r w' →
  ∃ new,
    trace w' = trace w ++ [EvDo t] ++ new ∧
    values w' = insertAll (storesOf new) (values w) ∧
    dosOf new = [] ∧ setsOf new = [] ∧
    NoDup (storesOf new).*1 ∧
    (∀ typ, typ ∈ (storesOf new).*1 →
       (typ ∉ (storesOf (trace w)).*1) ∧
       (Task typ false = t
        ∨ ∃ s' l v ins outs, tasks w !! Task typ false = Some s' ∧
            Do s' = Some (customDo l v ins outs) ∧ latches w' !! l = Some true)) ∧
    (initsOf new = [] ∨ (initsOf new = [task_Type t] ∧ task_Complete t = true)).
Proof.
  intros Hsh Hspent Hs Hd Hdo Heff.
  pose proof (Hsh t s Hs Hd) as Hp. unfold pendingShape in Hp. rewrite Hdo in Hp.
  destruct Heff as (Ht & new & Htr & Hv & Hdos & Hsets & Hc). simpl in *.
  assert (w' = log (EvDo t) w → new = []) as Hnil.
  { intros ->. rewrite <-(app_nil_r (trace _)) in Htr at 1.
    by apply app_inv_head in Htr. }
  exists new. rewrite <-app_assoc in Htr. split_and!; try done.
  - (* distinct *)
    destruct c; destruct (task_Complete t); try done.
    + destruct Hc as [_ Hc]. destruct Hp as (_ & _ & Hnd & _).
      destruct (latches w !! alreadyDone) as [[]|].
      * destruct Hc as [Hw _]. rewrite (Hnil Hw). constructor.
      * destruct Hc as (_ & _ & Hpre & _). by eapply prefix_NoDup.
      * destruct Hc as [Hw _]. rewrite (Hnil Hw). constructor.
    + destruct Hc as (_ & _ & _ & _ & ->). apply NoDup_singleton.
    + destruct Hc as (_ & _ & -> & _). constructor.
    + destruct Hc as (_ & _ & _ & Hc). destruct r.
      * rewrite Hc. apply NoDup_singleton.
      * subst new. constructor.
  - (* fresh and spent *)
    intros typ Hin.
    destruct c; destruct (task_Complete t) eqn:Hcomp; try done.
    + destruct Hc as [_ Hc]. destruct Hp as (_ & _ & _ & _ & Hsib).
      destruct (latches w !! alreadyDone) as [[]|] eqn:Hl.
      * destruct Hc as [Hw _]. rewrite (Hnil Hw) in Hin. by apply elem_of_nil in Hin.
      * destruct Hc as (Hl' & _ & Hpre & _).
        destruct (Hsib eq_refl typ) as (s' & Hs' & Hd' & Hdo');
          [by eapply prefix_elem|].
        split.
        -- intros (s2 & Hs2 & [Hd2|(l2 & ? & ? & ? & Hdo2 & Hl2)])%Hspent;
             simplify_eq. congruence.
        -- right. exists s', alreadyDone, v, ins, outs. split_and!; try done.
           rewrite Hl'. apply list_lookup_insert_eq. by eapply lookup_lt_Some.
      * destruct Hc as [Hw _]. rewrite (Hnil Hw) in Hin. by apply elem_of_nil in Hin.
    + destruct Hc as (_ & _ & _ & _ & Hc). rewrite Hc in Hin.
      apply list_elem_of_singleton in Hin as ->. subst typ0.
      assert (Task (task_Type t) false = t) as Heq by (by destruct t; simplify_eq/=).
      split; [|by left].
      intros (s2 & Hs2 & [Hd2|(l2 & ? & ? & ? & Hdo2 & Hl2)])%Hspent;
        rewrite Heq in Hs2; simplify_eq; congruence.
    + destruct Hc as (_ & _ & Hc & _). rewrite Hc in Hin. by apply elem_of_nil in Hin.
    + destruct Hc as (_ & _ & _ & Hc). destruct r; [|subst new; by apply elem_of_nil in Hin].
      rewrite Hc in Hin. apply list_elem_of_singleton in Hin as ->. subst typ0.
      assert (Task (task_Type t) false = t) as Heq by (by destruct t; simplify_eq/=).
      split; [|by left].
      intros (s2 & Hs2 & [Hd2|(l2 & ? & ? & ? & Hdo2 & Hl2)])%Hspent;
        rewrite Heq in Hs2; simplify_eq; congruence.
  - (* PleaseProvide *)
    destruct c.
    + left. by destruct Hc as [? _].
    + left. by destruct Hc as (_ & _ & _ & ? & _).
    + destruct (task_Complete t); [|done]. destruct Hp as [-> _].
      destruct Hc as (_ & _ & _ & [->| ->]%prefix_singleton & _); eauto.
    + left. by destruct Hc as (_ & _ & ? & _).
Qed.

Lemma extends_advances w w' : extends w w' → advances w w'.
Proof. intros He t s Hs. exists s. eauto. Qed.

Lemma update_advances w w' t s s' :
  tasks w !! t = Some s → tasks w' = tasks w →
  Done s' = true ∨ (Done s' = Done s ∧ Do s' = Do s) →
  advances w (set_tasks <[t := s']> w').
Proof.
  intros Hs Ht Hor t2 s2 Hs2. simpl. rewrite lookup_insert, Ht.
  case_decide; simplify_eq; eauto.
Qed.

Lemma isDone_advances w w' t : advances w w' → isDone w t → isDone w' t.
Proof.
  intros Ha (s & Hs & Hd). destruct (Ha t s Hs) as (s' & ? & [?|[? _]]);
    exists s'; split; congruence.
Qed.

Lemma spent_advances w w' typ :
  advances w w' →
  (∀ l, latches w !! l = Some true → latches w' !! l = Some true) →
  spent w typ → spent w' typ.
Proof.
  intros Ha Hl (s & Hs & Hor). destruct (Ha _ s Hs) as (s' & Hs' & Hor').
  exists s'. split; [done|]. destruct Hor' as [?|[Hd Hdo]]; [by left|].
  destruct Hor as [?|(l & v & ins & outs & ? & ?)]; [left; congruence|].
  right. exists l, v, ins, outs. split; [congruence|eauto].
Qed.

Lemma once_advances w w' :
  trace w' = trace w → values w' = values w → advances w w' →
  (∀ l, latches w !! l = Some true → latches w' !! l = Some true) →
  once w → once w'.
Proof.
  intros Htr Hv Ha Hl (HE & Hsp & Hdos & Hin). unfold once, onceE.
  rewrite Htr, Hv. destruct HE as (? & ? & ? & ? & ? & ?).
  split_and!; eauto using isDone_advances, spent_advances.
Qed.

Lemma insertAll_lookup_elem stored typ :
  is_Some (insertAll stored ∅ !! typ) → typ ∈ stored.*1.
Proof.
  intros Hs. destruct (decide (typ ∈ stored.*1)) as [|Hn]; [done|].
  rewrite insertAll_other, lookup_empty in Hs by done. by destruct Hs.
Qed.

Lemma once_effect w t s c r w' :
  shape w → once w →
  tasks w !! t = Some s → Done s = false → Do s = Some c →
  effect c (log (EvDo t) w) r w' →
  onceE w' ∧ once (set_tasks <[t := State true true [] None]> w').
Proof.
  intros Hsh ((Hnd & Hval & Hndos & Hninit & Hsets & Hwr) & Hsp & Hdos & Hin)
    Hs Hd Hdo Heff.
  pose proof (effect_tasks _ _ _ _ Heff) as Ht.
  pose proof (effect_latches _ _ _ _ Heff) as (_ & _ & Htrue & _).
  destruct (effect_fresh _ _ _ _ _ _ Hsh Hsp Hs Hd Hdo Heff)
    as (new & Htr & Hv & Hdn & Hsn & Hndn & Hfresh & Hinit).
  simpl in Ht.
  assert (typ_fresh : ∀ typ, typ ∈ (storesOf (trace w)).*1 →
            typ ∉ (storesOf new).*1).
  { intros typ Hold Hnew. by destruct (Hfresh typ Hnew). }
  assert (onceE w') as HE.
  { unfold onceE.
    rewrite Htr, !storesOf_app, !dosOf_app, !initsOf_app, !setsOf_app,
      !writesOf_app, Hdn, Hsn, (writesOf_none new Hsn).
    simpl. rewrite !app_nil_r. split_and!.
    - rewrite fmap_app. apply NoDup_app. split_and!; eauto.
    - by rewrite Hv, Hval, insertAll_app.
    - apply NoDup_app. split_and!; [done| |apply NoDup_singleton].
      intros x Hx ->%list_elem_of_singleton.
      destruct (Hdos _ Hx) as (s' & ? & ?). congruence.
    - destruct Hinit as [->|[-> Hcomp]]; [by rewrite app_nil_r|].
      apply NoDup_app. split_and!; [done| |apply NoDup_singleton].
      intros x Hx ->%list_elem_of_singleton.
      destruct (Hin _ Hx) as (s' & Hs' & ?).
      assert (Task (task_Type t) true = t) as Heq by (by destruct t; simplify_eq/=).
      rewrite Heq in Hs'. congruence.
    - intros typ v Hset. pose proof (Hsets typ v Hset) as Hlook.
      rewrite Hv, insertAll_other; [done|]. apply typ_fresh.
      apply insertAll_lookup_elem. rewrite <-Hval, Hlook. eauto.
    - done. }
  split; [done|].
  assert (advances w (set_tasks <[t := State true true [] None]> w')) as Hadv.
  { eapply update_advances; eauto. }
  split; [done|]. simpl.
  rewrite Htr, !storesOf_app, !dosOf_app, !initsOf_app, Hdn.
  simpl. rewrite ?app_nil_r. split_and!.
  - intros typ. rewrite fmap_app.
    intros [Hold|Hnew]%elem_of_app; [by eapply spent_advances; eauto|].
    destruct (Hfresh typ Hnew) as [_ [<-|(s' & l & v & ins & outs & Hs' & Hdo' & Hl)]].
    + eexists. simpl. rewrite lookup_insert_eq. split; [done|]. by left.
    + unfold spent. simpl. rewrite lookup_insert. case_decide.
      * eexists. split; [done|]. by left.
      * rewrite Ht. exists s'. split; [done|]. right. eauto 10.
  - intros x [Hx| ->%list_elem_of_singleton]%elem_of_app;
      [by eapply isDone_advances; eauto|].
    eexists. simpl. rewrite lookup_insert_eq. done.
  - intros typ Hty. assert (typ ∈ initsOf (trace w) ∨
      (typ = task_Type t ∧ task_Complete t = true)) as [?|[-> Hcomp]].
    { apply elem_of_app in Hty as [?|Hty]; [by left|].
      destruct Hinit as [Hi|[Hi ?]]; rewrite Hi in Hty;
        [by apply elem_of_nil in Hty|].
      apply list_elem_of_singleton in Hty. by right. }
    + by eapply isDone_advances; eauto.
    + assert (Task (task_Type t) true = t) as -> by (by destruct t; simplify_eq/=).
      eexists. simpl. rewrite lookup_insert_eq. done.
Qed.

Lemma good_fresh h : good (fresh h).
Proof.
  split; [apply pairs_fresh|]. split; [by intros t s ?|].
  split; [split; [constructor|by intros ? ?%elem_of_nil]|].
  split; [|split_and!; by intros ? ?%elem_of_nil].
  split_and!; try done;
    try (by intros ?? ?%elem_of_nil); try (by intros ??? ?%elem_of_nil);
    constructor.
Qed.

Lemma once_set w typ a v x :
  values w !! typ = Some v → read (heap w) v = Some x → once w →
  once (log (EvSet typ a v x) (set_heap <[a := x]> w)).
Proof.
  intros Hv Hx ((? & ? & ? & ? & Hsets & Hwr) & ? & ? & ?). unfold once, onceE.
  simpl.
  rewrite !storesOf_app, !dosOf_app, !initsOf_app, !setsOf_app, !writesOf_app.
  simpl. rewrite !app_nil_r. split_and!; try done.
  - intros typ' v' [?| [= -> ->]%list_elem_of_singleton]%elem_of_app; eauto.
  - intros typ' v' x' [?| [= -> -> ->]%list_elem_of_singleton]%elem_of_app;
      eauto using read_direct.
Qed.

Lemma good_lifetime U fuel calls w r w' :
  good w → lifetime U fuel calls w = (r, w') →
  (latched w' ∧ onceE w' ∧ trace w `prefix_of` trace w') ∧ (r = Ok tt → good w').
Proof.
  intros Hg H.
  eapply (lifetime_inv U
            (λ w1 _ _, good w1 ∧ trace w `prefix_of` trace w1)
            (λ w1, latched w1 ∧ onceE w1 ∧ trace w `prefix_of` trace w1)
            (λ _, True)) in H as [? Hok].
  - split; [done|]. intros Hr. by destruct (Hok Hr) as (_ & ? & _).
  - by intros ??? [[? _] _].
  - intros ??? [(_ & _ & ? & [? _]) ?]. done.
  - (* a type is derived *)
    intros w1 _ _ typ init [(Hp & Hsh & Hl & Ho) Hpre] Hf _ Ha.
    split; [|done]. split_and!.
    + by apply pairs_install.
    + by eapply shape_install.
    + eapply (latched_frame w1 _ []); eauto. by rewrite app_nil_r.
    + eapply (once_advances w1); eauto. apply extends_advances.
      by apply install_extends.
  - (* a task becomes InProgress *)
    intros w1 _ _ t s _ [(Hp & Hsh & Hl & Ho) Hpre] _ Hs Hd _ _ _.
    split; [|done]. split_and!.
    + by eapply pairs_update.
    + by apply shape_mark.
    + eapply (latched_frame w1 _ []); eauto. by rewrite app_nil_r.
    + eapply (once_advances w1); eauto. eapply update_advances; eauto.
  - (* an action runs *)
    intros w1 _ _ t s c r0 w0 [(Hp & Hsh & Hl & Ho) Hpre] _ Hs Hd _ Hdo
      Hrun%run_effect.
    pose proof (effect_tasks _ _ _ _ Hrun) as Ht.
    destruct (once_effect _ _ _ _ _ _ Hsh Ho Hs Hd Hdo Hrun) as [HE Ho'].
    assert (latched w0) as Hl0.
    { eapply latched_effect; [|done].
      eapply (latched_frame w1 _ []); eauto; simpl.
      + rewrite callsOf_app. simpl. by rewrite app_nil_r.
      + by rewrite app_nil_r. }
    assert (trace w `prefix_of` trace w0) as Hpre0.
    { destruct Hrun as (_ & new & -> & _). simpl.
      etrans; [done|]. rewrite <-app_assoc. by apply prefix_app_r. }
    destruct r0; [|done]. split; [|done]. split_and!.
    + by eapply pairs_update.
    + by eapply shape_run.
    + eapply (latched_frame w0 _ []); eauto. by rewrite app_nil_r.
    + done.
  - (* a task without action is finished *)
    intros w1 _ _ t s [(Hp & Hsh & Hl & Ho) Hpre] _ Hs Hd _ Hdo.
    split; [|done]. split_and!.
    + by eapply pairs_update.
    + eapply shape_done; eauto. intros ????. congruence.
    + eapply (latched_frame w1 _ []); eauto. by rewrite app_nil_r.
    + eapply (once_advances w1); eauto. eapply update_advances; eauto.
  - by intros w1 _ _ _ _ ? _ _ _.
  - by intros w1 _ _ ?.
  - (* a rule is added *)
    intros w1 _ v r0 w0 [(Hp & Hsh & Hl & Ho) Hpre] _ Hadd.
    pose proof (AddRule_inv _ _ _ _ _ Hadd)
      as (Hv & Hh & Hla & Htr & Hext & Hpp & _ & _).
    assert (latched w0)
      by (eapply (latched_frame w1 w0 [false]); [by rewrite Htr|done|done]).
    destruct r0 as [[]|].
    + split; [|by rewrite Htr]. split_and!; eauto.
      * by eapply shape_addrule.
      * eapply (once_advances w1); eauto using extends_advances.
        intros l Hl1. rewrite Hla. by apply lookup_app_l_Some.
    + split_and!; [done| |by rewrite Htr].
      destruct Ho as [? _]. unfold onceE. by rewrite Htr, Hv.
  - (* a variable of the caller is set *)
    intros w1 _ typ a v x [(Hp & Hsh & Hl & Ho) Hpre] Hv Hx.
    split; [|simpl; by apply prefix_app_r]. unfold good. split_and!.
    + by eapply pairs_frame.
    + by eapply shape_frame.
    + eapply (latched_frame w1 _ []); simpl.
      * rewrite callsOf_app. simpl. by rewrite app_nil_r.
      * by rewrite app_nil_r.
      * done.
    + by apply once_set.
  - by exists [].
  - apply Forall_forall. by intros [[| |]|] _.
Qed.

(** ** Dependencies come first *)

Lemma live_grow w w' st :
  (∀ u s, tasks w' !! u = Some s → InProgress s = true → Done s = false →
     tasks w !! u = Some s) →
  (∀ d, isDone w d → isDone w' d) →
  live w st → live w' st.
Proof.
  intros Hold Hdone Hl u s Hs Hip Hd.
  destruct (Hl u s (Hold _ _ Hs Hip Hd) Hip Hd) as [Hin Hdeps].
  split; [done|]. intros Hself.
  destruct (Hdeps Hself) as (pre & post & ? & ? & Hall).
  exists pre, post. split_and!; try done.
  intros d Hdin. destruct (Hall d Hdin); eauto.
Qed.

Lemma live_remove w w' st t :
  (∀ u s, tasks w' !! u = Some s → InProgress s = true → Done s = false →
     tasks w !! u = Some s) →
  (∀ d, isDone w d → isDone w' d) →
  last st = Some t → isDone w' t →
  live w st → live w' (removelast st).
Proof.
  intros Hold Hdone Hlast Ht Hl u s Hs Hip Hd.
  apply last_Some in Hlast as [st' ->]. rewrite removelast_last.
  assert (u ≠ t) as Hne.
  { intros ->. destruct Ht as (s' & ? & ?). congruence. }
  destruct (Hl u s (Hold _ _ Hs Hip Hd) Hip Hd) as [Hin Hdeps].
  split.
  { apply elem_of_app in Hin as [?| ?%list_elem_of_singleton]; done. }
  intros Hself. destruct (Hdeps Hself) as (pre & post & Hst & Hnotin & Hall).
  destruct (last post) as [x|] eqn:Hpost.
  - apply last_Some in Hpost as [post' ->].
    replace (pre ++ u :: post' ++ [x]) with ((pre ++ u :: post') ++ [x]) in Hst
      by (by rewrite <-app_assoc).
    apply app_inj_tail in Hst as [-> ->].
    exists pre, post'. split_and!; try done.
    + intros ?. apply Hnotin, elem_of_app. by left.
    + intros d Hdin. destruct (Hall d Hdin) as [?|Hp]; [eauto|].
      apply elem_of_app in Hp as [?| ->%list_elem_of_singleton]; eauto.
  - apply last_None in Hpost as ->.
    replace (pre ++ [u]) with (pre ++ [u]) in Hst by done.
    apply app_inj_tail in Hst as [_ ?]. done.
Qed.

Lemma live_mark w st t s pushed :
  live w st → last st = Some t → tasks w !! t = Some s →
  Done s = false → InProgress s = false →
  (∀ d, d ∈ DependsOn s → isDone w d ∨ d ∈ pushed) →
  (∀ d, d ∈ pushed → d ∈ DependsOn s ∧ notStarted w d) →
  live (set_tasks <[t := State false true (DependsOn s) (Do s)]> w) (st ++ pushed).
Proof.
  intros Hl Hlast Ht Hd Hip Hdeps Hpushed u su Hsu Hipu Hdu.
  assert (∀ d, isDone w d →
    isDone (set_tasks <[t := State false true (DependsOn s) (Do s)]> w) d) as Hdone.
  { intros d (sd & Hsd & ?). exists sd. split; [|done]. simpl.
    rewrite lookup_insert_ne; [done|]. intros ->. congruence. }
  simpl in Hsu. rewrite lookup_insert in Hsu. case_decide as Heq; simplify_eq.
  - simpl in *. apply last_Some in Hlast as [st' ->]. split.
    { apply elem_of_app. left. apply elem_of_app. right. by left. }
    intros Hself. exists st', pushed. rewrite <-app_assoc. split_and!; try done.
    + intros [? _]%Hpushed. done.
    + intros d Hdin. destruct (Hdeps d Hdin); eauto.
  - destruct (Hl u su Hsu Hipu Hdu) as [Hin Hdepsu]. split.
    { apply elem_of_app. by left. }
    intros Hself. destruct (Hdepsu Hself) as (pre & post & -> & Hnotin & Hall).
    exists pre, (post ++ pushed). rewrite <-app_assoc. split_and!; try done.
    + intros [?|[_ (s' & ? & ? & ?)]%Hpushed]%elem_of_app; [done|]. congruence.
    + intros d Hdin. destruct (Hall d Hdin) as [?|?]; [eauto|].
      right. apply elem_of_app. by left.
Qed.

(** When a task in progress is on top of the stack, all it depends on is
    Done. *)
Lemma live_top w st t s :
  live w st → last st = Some t → tasks w !! t = Some s →
  InProgress s = true → Done s = false → t ∉ DependsOn s →
  ∀ d, d ∈ DependsOn s → isDone w d.
Proof.
  intros Hl Hlast Hs Hip Hd Hself d Hdin.
  destruct (Hl t s Hs Hip Hd) as [_ Hdeps].
  destruct (Hdeps Hself) as (pre & post & -> & Hnotin & Hall).
  destruct (last post) as [x|] eqn:Hpost.
  - apply last_Some in Hpost as [post' ->].
    replace (pre ++ t :: post' ++ [x]) with ((pre ++ t :: post') ++ [x]) in Hlast
      by (by rewrite <-app_assoc).
    rewrite last_snoc in Hlast. injection Hlast as ->. destruct Hnotin. apply elem_of_app. right. by left.
  - apply last_None in Hpost as ->. destruct (Hall d Hdin) as [?|?%elem_of_nil]; done.
Qed.

(** ** A Done task has stored its value *)

Lemma effect_values c w r w' typ :
  effect c w r w' → is_Some (values w !! typ) → is_Some (values w' !! typ).
Proof. intros (_ & new & _ & -> & _). apply insertAll_is_Some. Qed.

Lemma effect_latch_set c w r w' l :
  effect c w r w' → latches w' !! l = Some true →
  latches w !! l = Some true
  ∨ ∃ v ins outs, c = customDo l v ins outs ∧ latches w !! l = Some false.
Proof.
  intros (_ & new & _ & _ & _ & _ & Hc) Hl. destruct c.
  - destruct Hc as [_ Hc].
    destruct (latches w !! alreadyDone) as [[]|] eqn:Hl0.
    + destruct Hc as [-> _]. by left.
    + destruct Hc as (Hl' & _). rewrite Hl', list_lookup_insert in Hl.
      case_decide as Hd; [|by left]. destruct Hd as [-> _]. right. eauto.
    + destruct Hc as [-> _]. by left.
  - destruct Hc as (_ & Hl' & _). rewrite Hl' in Hl. by left.
  - destruct Hc as (Hl' & _). rewrite Hl' in Hl. by left.
  - destruct Hc as (Hl' & _). rewrite Hl' in Hl. by left.
Qed.

Lemma effect_valued w t s c w' :
  shape w → valued w →
  tasks w !! t = Some s → Done s = false → Do s = Some c →
  effect c (log (EvDo t) w) (Ok tt) w' →
  is_Some (values w' !! task_Type t) ∧
  (∀ l v ins outs, c = customDo l v ins outs →
     ∀ typ, typ ∈ nonErr outs → is_Some (values w' !! typ)).
Proof.
  intros Hsh [_ Hv] Hs Hd Hdo Heff.
  pose proof (Hsh t s Hs Hd) as Hp. unfold pendingShape in Hp. rewrite Hdo in Hp.
  pose proof (effect_values _ _ _ _ (task_Type t) Heff) as Hgrow.
  destruct Heff as (_ & new & _ & Hval & _ & _ & Hc). simpl in *.
  destruct c; destruct (task_Complete t); try done.
  - destruct (Hv _ _ _ _ _ _ Hs Hd Hdo) as (Hwt & Hlatch & _).
    destruct Hp as (_ & Hin & _ & Hlen & _). destruct Hc as [_ Hc].
    assert (∀ typ, typ ∈ nonErr outs → is_Some (values w' !! typ)) as Hall.
    { destruct (latches w !! alreadyDone) as [[]|] eqn:Hl.
      - destruct Hc as [-> _]. simpl. eauto.
      - destruct Hc as (_ & _ & _ & Hc). intros typ Htyp.
        rewrite Hval. apply insertAll_elem. by rewrite Hc.
      - by destruct Hc as [_ ?]. }
    split; [eauto|]. intros ???? [= <- <- <- <-]. done.
  - destruct Hc as (_ & _ & _ & _ & Hc). split; [|done].
    rewrite Hval. apply insertAll_elem. rewrite Hc, Hp. by left.
  - destruct Hp as [-> Hor]. destruct Hc as (_ & _ & _ & _ & Hc).
    split; [|done]. apply Hgrow. simpl. by apply Hc.
  - destruct Hc as (_ & _ & _ & Hc). split; [|done].
    rewrite Hval. apply insertAll_elem. rewrite Hc, Hp. by left.
Qed.

Lemma valued_run w t s c w' :
  shape w → valued w →
  tasks w !! t = Some s → Done s = false → Do s = Some c →
  effect c (log (EvDo t) w) (Ok tt) w' →
  valued (set_tasks <[t := State true true [] None]> w').
Proof.
  intros Hsh Hv Hs Hd Hdo Heff.
  destruct (effect_valued _ _ _ _ _ Hsh Hv Hs Hd Hdo Heff) as [Ht Hall].
  pose proof (effect_tasks _ _ _ _ Heff) as Htasks. simpl in Htasks.
  destruct Hv as [Hv1 Hv2]. split; simpl.
  - intros t' s' Hs' Hd'. rewrite lookup_insert in Hs'.
    case_decide; simplify_eq; [done|]. rewrite Htasks in Hs'.
    eapply effect_values; [exact Heff|]. simpl. eauto.
  - intros t' s' l v ins outs Hs' Hd' Hdo'. rewrite lookup_insert in Hs'.
    case_decide; simplify_eq. rewrite Htasks in Hs'.
    destruct (Hv2 _ _ _ _ _ _ Hs' Hd' Hdo') as (Hwt & Hlatch & Huniq).
    split_and!; [done| |].
    + intros Hl typ Htyp.
      destruct (effect_latch_set _ _ _ _ _ Heff Hl)
        as [Hl0|(v0 & ins0 & outs0 & -> & Hl0)].
      * eapply effect_values; [exact Heff|]. simpl. eauto.
      * rewrite (Huniq _ _ _ _ _ Hs Hd Hdo) in Hall. eauto.
    + intros t2 s2 v2 ins2 outs2 Hs2 Hd2 Hdo2. rewrite lookup_insert in Hs2.
      case_decide; simplify_eq. rewrite Htasks in Hs2. eauto.
Qed.

Lemma valued_skip w st t s :
  shape w → live w st → valued w →
  last st = Some t → tasks w !! t = Some s →
  Done s = false → InProgress s = true → Do s = None →
  valued (set_tasks <[t := State true true [] None]> w).
Proof.
  intros Hsh Hl [Hv1 Hv2] Hlast Hs Hd Hip Hdo.
  pose proof (Hsh t s Hs Hd) as Hp. unfold pendingShape in Hp. rewrite Hdo in Hp.
  destruct t as [typ []]; [|done]. simpl in Hp.
  assert (isDone w (Task typ false)) as (sp & Hsp & Hdp).
  { eapply live_top; eauto; rewrite Hp.
    - by intros ?%list_elem_of_singleton.
    - by left. }
  split; simpl.
  - intros t' s' Hs' Hd'. rewrite lookup_insert in Hs'.
    case_decide; simplify_eq; [|eauto].
    apply (Hv1 _ _ Hsp Hdp).
  - intros t' s' l v ins outs Hs' Hd' Hdo'. rewrite lookup_insert in Hs'.
    case_decide; simplify_eq.
    destruct (Hv2 _ _ _ _ _ _ Hs' Hd' Hdo') as (Hwt & Hlatch & Huniq).
    split_and!; [done..|].
    intros t2 s2 v2 ins2 outs2 Hs2 Hd2 Hdo2. rewrite lookup_insert in Hs2.
    case_decide; simplify_eq. eauto.
Qed.

Lemma autoProvide_no_custom U typ init :
  autoProvide U typ = inl init →
  ∀ l v ins outs,
    Do (Partial init) ≠ Some (customDo l v ins outs) ∧
    Do (Complete init) ≠ Some (customDo l v ins outs).
Proof.
  unfold autoProvide.
  destruct (Kind U typ); try (intros [= <-]; by simpl).
  destruct (if bool_decide (Kind U (Elem U typ) = reflect.Struct) then _ else _)
    as [providedFields|]; [|done].
  destruct (match PleaseProvide U typ with Some f => _ | None => None end); [done|].
  case_match; [done|]. intros [= <-]. by simpl.
Qed.

Lemma valued_sim w w' :
  (∀ t s', tasks w' !! t = Some s' →
     (∃ s, tasks w !! t = Some s ∧ Done s = Done s' ∧ Do s = Do s')
     ∨ (Done s' = false ∧ ∀ l v ins outs, Do s' ≠ Some (customDo l v ins outs))) →
  values w' = values w → latches w' = latches w →
  valued w → valued w'.
Proof.
  intros Hsim Hval Hl [Hv1 Hv2]. split.
  - intros t s' Hs' Hd'. destruct (Hsim t s' Hs') as [(s & Hs & Hd & _)|[? _]];
      [|congruence]. rewrite Hval. eapply Hv1; [exact Hs|congruence].
  - intros t s' l v ins outs Hs' Hd' Hdo'.
    destruct (Hsim t s' Hs') as [(s & Hs & Hd & Hdo)|[_ Hno]];
      [|by destruct (Hno l v ins outs)].
    destruct (Hv2 t s l v ins outs Hs) as (Hwt & Hlatch & Huniq); [congruence..|].
    rewrite Hval, Hl. split_and!; [done..|].
    intros t2 s2' v2 ins2 outs2 Hs2' Hd2' Hdo2'.
    destruct (Hsim t2 s2' Hs2') as [(s2 & Hs2 & Hd2 & Hdo2)|[_ Hno]];
      [|by destruct (Hno l v2 ins2 outs2)].
    eapply (Huniq t2 s2); [exact Hs2|congruence|]. rewrite Hdo2. exact Hdo2'.
Qed.

Lemma valued_addrule U v w w' :
  shape w → valued w → wellTyped v →
  AddRule U (FuncValue v) w = (Ok tt, w') → valued w'.
Proof.
  intros Hsh [Hv1 Hv2] Hwt H.
  apply AddRule_inv in H as (Hval & _ & Hl & _ & Hext & _ & Hold & _).
  assert (Hbound : ∀ t s l v0 ins outs, tasks w !! t = Some s → Done s = false →
            Do s = Some (customDo l v0 ins outs) → l < length (latches w)).
  { intros t s l v0 ins outs Hs Hd Hdo. pose proof (Hsh t s Hs Hd) as Hp.
    unfold pendingShape in Hp. rewrite Hdo in Hp.
    destruct (task_Complete t); [done|]. by destruct Hp. }
  assert (Hnew : ∀ t s, tasks w' !! t = Some s → tasks w !! t = Some s ∨
            (Done s = false ∧ ∀ l v0 ins outs, Do s = Some (customDo l v0 ins outs) →
               l = length (latches w) ∧ v0 = v ∧ outs = mkOutput U <$> Out v)).
  { intros t s Hs. destruct (Hold t s Hs) as [?|(init & Hin & Hcase)]; [by left|].
    right. apply customInitializers_elem in Hin as (_ & Hp & Hc).
    destruct Hcase as [[-> ->]|[-> ->]]; rewrite ?Hp, ?Hc; simpl; split; try done.
    by intros ???? [= <- <- _ <-]. }
  split; rewrite Hval.
  - intros t s Hs Hd.
    destruct (Hnew t s Hs) as [?|[? _]]; [eauto|congruence].
  - intros t s l v0 ins outs Hs Hd Hdo. destruct (Hnew t s Hs) as [Hs0|[_ Hc]].
    + destruct (Hv2 _ _ _ _ _ _ Hs0 Hd Hdo) as (? & Hlatch & Huniq).
      pose proof (Hbound _ _ _ _ _ _ Hs0 Hd Hdo) as Hlt.
      rewrite Hl, lookup_app_l by done. split_and!; [done..|].
      intros t2 s2 v2 ins2 outs2 Hs2 Hd2 Hdo2.
      destruct (Hnew t2 s2 Hs2) as [Hs20|[_ Hc]]; [eauto|].
      destruct (Hc _ _ _ _ Hdo2) as (-> & _). lia.
    + destruct (Hc _ _ _ _ Hdo) as (-> & -> & ->). split_and!; [done| |].
      * rewrite Hl, lookup_app_r, Nat.sub_diag by done. done.
      * intros t2 s2 v2 ins2 outs2 Hs2 Hd2 Hdo2.
        destruct (Hnew t2 s2 Hs2) as [Hs20|[_ Hc2]].
        -- pose proof (Hbound _ _ _ _ _ _ Hs20 Hd2 Hdo2). lia.
        -- by destruct (Hc2 _ _ _ _ Hdo2) as (_ & _ & ->).
Qed.

Lemma sound_fresh h : sound (fresh h) [].
Proof.
  split; [apply pairs_fresh|]. split; [by intros t s ?|].
  split; [by intros u s ?|]. split; [by intros t s ?|by intros t s ???? ?].
Qed.

Lemma live_start w t : live w [] → live w [t].
Proof. intros Hl u s Hs Hip Hd. by destruct (Hl u s Hs Hip Hd) as [?%elem_of_nil _]. Qed.

Lemma live_frame w w' st : tasks w' = tasks w → live w st → live w' st.
Proof.
  intros Ht. apply live_grow.
  - intros ????. by rewrite <-Ht.
  - intros d (s & ? & ?). exists s. by rewrite Ht.
Qed.

Lemma sound_all U :
  (∀ fuel calls w r w',
     sound w [] → Forall (admissibleCall wellTyped) calls →
     lifetime U fuel calls w = (r, w') → r = Ok tt → sound w' []) ∧
  (∀ fuel goals i w r w',
     sound w [] → completeLoop U fuel goals i w = (r, w') →
     r = Ok tt → sound w' []).
Proof.
  edestruct (all_inv U (λ w1 st _, sound w1 st) (λ _, True) wellTyped)
    as [Hlife Hcomp].
  11:{ split.
       - intros fuel calls w r w' Hs Hadm H ->.
         eapply Hlife in H as [_ Hok]; [|by exists []|done].
         by destruct (Hok eq_refl) as [_ ?].
       - intros fuel goals i w r w' Hs H ->.
         eapply Hcomp in H as [_ Hok]; [|by exists []].
         by destruct (Hok eq_refl) as [_ ?]. }
  - by intros ??? [? _].
  - done.
  - (* a type is derived *)
    intros w1 st _ typ init (Hp & Hsh & Hl & Hv) Hf Hc Ha.
    pose proof (autoProvide_shape U typ init w1 Ha) as (Hd1 & Hi1 & Hd2 & Hi2 & _).
    pose proof (install_extends typ init w1 Hp Hf) as Hext.
    split_and!.
    + by apply pairs_install.
    + by eapply shape_install.
    + eapply live_grow; [| |done].
      * intros u s Hu Hip Hd. simpl in Hu.
        rewrite lookup_insert in Hu. case_decide; simplify_eq; [congruence|].
        rewrite lookup_insert in Hu. case_decide; simplify_eq; [congruence|done].
      * intros d. by apply extends_isDone.
    + eapply (valued_sim w1); [|done..]. intros t s Hs'. simpl in Hs'.
      pose proof (autoProvide_no_custom U typ init Ha) as Hno.
      rewrite lookup_insert in Hs'. case_decide; simplify_eq.
      { right. split; [done|]. intros. apply Hno. }
      rewrite lookup_insert in Hs'. case_decide; simplify_eq.
      { right. split; [done|]. intros. apply Hno. }
      left. eauto.
  - (* a task becomes InProgress *)
    intros w1 st _ t s pushed (Hp & Hsh & Hl & Hv) Hlast Ht Hd Hip Hdeps Hpushed.
    split_and!.
    + by eapply pairs_update.
    + by apply shape_mark.
    + by apply live_mark.
    + eapply (valued_sim w1); [|done..]. intros t' s' Hs'. simpl in Hs'.
      rewrite lookup_insert in Hs'. case_decide; simplify_eq; left; eauto.
  - (* an action runs *)
    intros w1 st _ t s c r0 w0 (Hp & Hsh & Hl & Hv) Hlast Ht Hd Hip Hdo
      Hrun%run_effect.
    destruct r0 as [[]|]; [|done].
    pose proof (effect_tasks _ _ _ _ Hrun) as Htasks. simpl in Htasks.
    split_and!.
    + by eapply pairs_update.
    + by eapply shape_run.
    + eapply (live_remove w1); [| |done| |done].
      * intros u su Hu ??. simpl in Hu. rewrite lookup_insert in Hu.
        case_decide; simplify_eq. by rewrite <-Htasks.
      * intros d. apply isDone_advances. eapply update_advances; eauto.
      * eexists. simpl. by rewrite lookup_insert_eq.
    + by eapply valued_run.
  - (* a task without action is finished *)
    intros w1 st _ t s (Hp & Hsh & Hl & Hv) Hlast Ht Hd Hip Hdo.
    split_and!.
    + by eapply pairs_update.
    + eapply shape_done; eauto. intros ????. congruence.
    + eapply (live_remove w1); [| |done| |done].
      * intros u su Hu ??. simpl in Hu. rewrite lookup_insert in Hu.
        by case_decide; simplify_eq.
      * intros d. apply isDone_advances. eapply update_advances; eauto.
      * eexists. simpl. by rewrite lookup_insert_eq.
    + by eapply valued_skip.
  - (* a finished task is popped *)
    intros w1 st _ t s (Hp & Hsh & Hl & Hv) Hlast Ht Hd. split_and!; try done.
    eapply (live_remove w1); eauto. by exists s.
  - intros w1 _ t (Hp & Hsh & Hl & Hv). split_and!; try done. by apply live_start.
  - (* a rule is added *)
    intros w1 _ v r0 w0 (Hp & Hsh & Hl & Hv) Hwt Hadd.
    destruct r0 as [[]|]; [|done].
    pose proof (AddRule_inv _ _ _ _ _ Hadd)
      as (_ & _ & _ & _ & Hext & Hpp & Hold & _).
    split_and!; eauto.
    + by eapply shape_addrule.
    + eapply live_grow; [| |done].
      * intros u s Hu Hip Hd. destruct (Hold u s Hu) as [?|(i & Hin & Hcase)];
          [done|].
        apply customInitializers_elem in Hin as (_ & Hpart & Hcomp).
        destruct Hcase as [[-> ->]|[-> ->]];
          rewrite ?Hpart, ?Hcomp in Hip; done.
      * intros d. by apply extends_isDone.
    + by eapply valued_addrule.
  - (* a variable of the caller is set *)
    intros w1 _ typ a v x (Hp & Hsh & Hl & Hv) _ _. split_and!.
    + by eapply pairs_frame.
    + by eapply shape_frame.
    + by eapply live_frame.
    + eapply (valued_sim w1); [|done..]. intros t s ?. left. eauto.
Qed.

Lemma sound_lifetime U fuel calls w r w' :
  sound w [] → Forall (admissibleCall wellTyped) calls →
  lifetime U fuel calls w = (r, w') → r = Ok tt → sound w' [].
Proof. apply sound_all. Qed.

(** ** What a walk achieves *)

Lemma advances_refl w : advances w w.
Proof. intros t s Hs. exists s. eauto. Qed.

Lemma advances_trans w1 w2 w3 : advances w1 w2 → advances w2 w3 → advances w1 w3.
Proof.
  intros H1 H2 t s Hs. destruct (H1 t s Hs) as (s' & Hs' & Hor).
  destruct (H2 t s' Hs') as (s'' & Hs'' & Hor'). exists s''. split; [done|].
  destruct Hor' as [?|[Hd Hdo]]; [by left|].
  destruct Hor as [?|[??]]; [left|right; split]; congruence.
Qed.

Lemma advances_frame w w' : tasks w' = tasks w → advances w w'.
Proof. intros Ht t s Hs. exists s. rewrite Ht. eauto. Qed.

(** [do] finishes the task it is given and records in newlyDone every task
    whose action it ran. *)
Lemma do_post U fuel t w r w' :
  pairs w → Provider_do U fuel t w = (r, w') →
  advances w w' ∧ pairs w' ∧
  ∃ new, trace w' = trace w ++ new ∧ setsOf new = [] ∧
    ∀ nd, r = Ok nd → isDone w' t ∧ ∀ u, u ∈ dosOf new → u ∈ nd.
Proof.
  intros Hp H.
  pose (I := λ (w1 : world) (st nd : list task),
    pairs w1 ∧ advances w w1 ∧ (t ∈ st ∨ isDone w1 t) ∧
    ∃ new, trace w1 = trace w ++ new ∧ setsOf new = [] ∧
      ∀ u, u ∈ dosOf new → u ∈ nd).
  pose (E := λ (w1 : world),
    pairs w1 ∧ advances w w1 ∧ ∃ new, trace w1 = trace w ++ new ∧ setsOf new = []).
  assert (match r with Ok nd => I w' [] nd | Fail _ => E w' end) as Hpost.
  { eapply (doLoop_inv U I E); [..|exact H]; unfold I, E.
    - by intros ??? [? _].
    - intros w1 st nd (? & ? & _ & new & ? & ? & _).
      split_and!; [done..|]. by exists new.
    - intros w1 st nd typ init (Hp1 & Ha & Hr & Hn) Hf _ _.
      pose proof (install_extends typ init w1 Hp1 Hf) as Hext.
      split_and!; [by apply pairs_install| | |done].
      + eapply advances_trans; eauto using extends_advances.
      + destruct Hr; eauto using extends_isDone.
    - intros w1 st nd t1 s pushed (Hp1 & Ha & Hr & Hn) _ Hs Hd _ _ _.
      assert (advances w1 (set_tasks <[t1:=State false true (DependsOn s) (Do s)]> w1)).
      { eapply update_advances; [done|done|right; simpl; by rewrite Hd]. }
      split_and!; [by eapply pairs_update|by eapply advances_trans| |done].
      destruct Hr; [left; apply elem_of_app; by left|right].
      by eapply isDone_advances.
    - intros w1 st nd t1 s c r0 w0 (Hp1 & Ha & Hr & new & Htr & Hsn & Hn)
        Hlast Hs _ _ _ Hrun%run_effect.
      pose proof (effect_tasks _ _ _ _ Hrun) as Ht. simpl in Ht.
      destruct Hrun as (_ & new' & Htr' & _ & Hdn & Hsn' & _). simpl in Htr'.
      assert (trace w0 = trace w ++ (new ++ [EvDo t1] ++ new')) as Htr0.
      { by rewrite Htr', Htr, <-!app_assoc. }
      assert (setsOf (new ++ [EvDo t1] ++ new') = []) as Hs0.
      { by rewrite !setsOf_app, Hsn, Hsn'. }
      destruct r0.
      + assert (advances w1 (set_tasks <[t1:=State true true [] None]> w0)).
        { eapply update_advances; [done|done|by left]. }
        split_and!; [by eapply pairs_update|by eapply advances_trans| |].
        * destruct Hr as [Hin|?]; [|right; by eapply isDone_advances].
          apply last_Some in Hlast as [st' ->]. rewrite removelast_last.
          apply elem_of_app in Hin as [?| ->%list_elem_of_singleton]; [by left|].
          right. eexists. simpl. by rewrite lookup_insert_eq.
        * eexists. split_and!; [done..|]. intros u.
          rewrite !dosOf_app, Hdn, app_nil_r. simpl.
          intros [?| ?]%elem_of_app; apply elem_of_app; eauto.
      + split_and!; [by eapply pairs_frame| |eauto].
        eapply advances_trans; eauto using advances_frame.
    - intros w1 st nd t1 s (Hp1 & Ha & Hr & Hn) Hlast Hs _ _ _.
      assert (advances w1 (set_tasks <[t1:=State true true [] None]> w1)).
      { eapply update_advances; [done|done|by left]. }
      split_and!; [by eapply pairs_update|by eapply advances_trans| |done].
      destruct Hr as [Hin|?]; [|right; by eapply isDone_advances].
      apply last_Some in Hlast as [st' ->]. rewrite removelast_last.
      apply elem_of_app in Hin as [?| ->%list_elem_of_singleton]; [by left|].
      right. eexists. simpl. by rewrite lookup_insert_eq.
    - intros w1 st nd t1 s (Hp1 & Ha & Hr & Hn) Hlast Hs Hd.
      split_and!; try done. destruct Hr as [Hin|?]; [|by right].
      apply last_Some in Hlast as [st' ->]. rewrite removelast_last.
      apply elem_of_app in Hin as [?| ->%list_elem_of_singleton]; [by left|].
      right. by exists s.
    - split_and!; [done|apply advances_refl|left; by left|].
      exists []. rewrite app_nil_r. split_and!; [done..|]. by intros ? ?%elem_of_nil. }
  unfold I, E in Hpost. destruct r as [nd|].
  - destruct Hpost as (? & ? & [?%elem_of_nil|?] & new & ? & ? & ?); [done|].
    split_and!; try done. exists new. split_and!; try done.
    intros ? [= <-]. done.
  - destruct Hpost as (? & ? & new & ? & ?). split_and!; try done.
    exists new. done.
Qed.

Lemma newGoals_elem nd typ : Task typ false ∈ nd → Task typ true ∈ newGoals nd.
Proof.
  induction nd as [|[typ' []] nd IH]; simpl.
  - by intros ?%elem_of_nil.
  - intros [[=]|?]%elem_of_cons. eauto.
  - intros [[= ->]|?]%elem_of_cons; [left|right; eauto].
Qed.

(** [complete] finishes all its goals, and with them the Complete task of
    every type whose Partial action it ran. *)
Lemma completeLoop_post U fuel goals i w w' :
  pairs w → completeLoop U fuel goals i w = (Ok tt, w') →
  advances w w' ∧ pairs w' ∧
  ∃ new, trace w' = trace w ++ new ∧ setsOf new = [] ∧
    (∀ typ, Task typ false ∈ dosOf new → isDone w' (Task typ true)) ∧
    (∀ g, g ∈ drop i goals → isDone w' g).
Proof.
  revert goals i w. induction fuel as [|fuel IH]; intros goals i w Hp H;
    simpl in H; destruct (goals !! i) as [goal|] eqn:Hg; try by inv_ret H.
  - inv_ret H. split_and!; [apply advances_refl|done|].
    exists []. rewrite app_nil_r. split_and!; try done.
    + by intros ? ?%elem_of_nil.
    + rewrite drop_ge by (by apply lookup_ge_None). by intros ? ?%elem_of_nil.
  - inv_bind H.
    destruct (do_post _ _ _ _ _ _ Hp H0) as (Ha1 & Hp1 & new1 & Htr1 & Hs1 & Hpost).
    destruct (Hpost a eq_refl) as [Hdone Hnd]. clear Hpost.
    destruct (IH _ _ _ Hp1 H) as (Ha2 & Hp2 & new2 & Htr2 & Hs2 & Hdos & Hgoals).
    split_and!; [by eapply advances_trans|done|].
    exists (new1 ++ new2). rewrite Htr2, Htr1, <-app_assoc, setsOf_app, Hs1, Hs2.
    split_and!; try done.
    + intros typ. rewrite dosOf_app. intros [Hin|Hin]%elem_of_app; [|eauto].
      apply Hgoals. rewrite drop_app_le
        by (apply lookup_lt_Some in Hg; lia).
      apply elem_of_app. right. by apply newGoals_elem, Hnd.
    + intros g. rewrite (drop_S _ _ _ Hg).
      intros [->|Hin]%elem_of_cons; [by eapply isDone_advances|].
      apply Hgoals. rewrite drop_app_le by (apply lookup_lt_Some in Hg; lia).
      apply elem_of_app. by left.
  - inv_ret H. split_and!; [apply advances_refl|done|].
    exists []. rewrite app_nil_r. split_and!; try done.
    + by intros ? ?%elem_of_nil.
    + rewrite drop_ge by (by apply lookup_ge_None). by intros ? ?%elem_of_nil.
Qed.

Lemma Provider_complete_post U fuel typ w w' :
  pairs w → Provider_complete U fuel typ w = (Ok tt, w') →
  advances w w' ∧ pairs w' ∧ isDone w' (Task typ true) ∧
  ∃ new, trace w' = trace w ++ new ∧ setsOf new = [] ∧
    (∀ typ, Task typ false ∈ dosOf new → isDone w' (Task typ true)).
Proof.
  intros Hp H. apply completeLoop_post in H
    as (? & ? & new & ? & ? & ? & Hg); [|done].
  split_and!; try done; [|by exists new]. apply Hg. by left.
Qed.


(** ** Cycles, errors of rules and malformed requests *)

(** C1: for two structs that need each other fully, the request for
    either fails with a cycle error; the report starts at the position in
    the stack of the task being worked on, not at that of the dependency
    found in progress, so it names one type only, twice: asked for [*Foo]
    it reads "cycle: *Bar --> *Bar", asked for [*Bar] it reads
    "cycle: *Foo --> *Foo". *)
Theorem C1_cycle_report_starts_at_current_task fuel :
  (Provide mutualU (S (S fuel)) [Pointer (TPtr Foo) 0] (caller 1)).1
    = Fail (Error (VErr "cycle: *Bar --> *Bar")) ∧
  (Provide mutualU (S (S fuel)) [Pointer (TPtr Bar) 0] (caller 1)).1
    = Fail (Error (VErr "cycle: *Foo --> *Foo")).
Proof. split; vm_compute; reflexivity. Qed.

(** C7: the action of a task does not always run after all its
    dependencies are Done.  For a struct with a field of its own pointer
    type, the Complete task of [*Foo] depends on the Partial task of
    [*Foo]; asked for [*Foo], the scheduler runs the Complete action
    first of all, while the Partial task is not Done and no value is
    stored, and the action panics. *)
Theorem C7_action_runs_before_its_dependency fuel :
  let r := Provide selfU (S (S fuel)) [Pointer (TPtr Foo) 0] (caller 1) in
  r.1 = Fail Panic ∧
  trace r.2 = [EvDo (Task (TPtr Foo) true)] ∧
  (∃ init, autoProvide selfU (TPtr Foo) = inl init ∧
     Task (TPtr Foo) false ∈ DependsOn (Complete init)) ∧
  ¬ isDone r.2 (Task (TPtr Foo) false).
Proof.
  split_and!.
  - vm_compute. reflexivity.
  - vm_compute. reflexivity.
  - eexists. split; [vm_compute; reflexivity|]. simpl. by left.
  - intros (s & Hs & Hd). vm_compute in Hs. by simplify_eq.
Qed.

(** C2: a failed invocation can leave a value behind.  The rule
    [func() (X, error)] returns a string and an error that is not nil:
    the request for X fails with that error, the function has been called
    once, and the ValueStore holds the string for X. *)
Lemma C2_counterexample :
  let r := lifetime rulesU 3
             [CallAddRule (FuncValue failingRule); CallProvide [Pointer X 0]]
             (caller 1) in
  r.1 = Fail (Error (VErr "boom")) ∧
  callsOf (trace r.2) = [0] ∧
  values r.2 !! X = Some (VStr "x") ∧ values r.2 ≠ values (caller 1).
Proof.
  split_and!; try (vm_compute; reflexivity).
  intros H. apply (f_equal (λ m, m !! X)) in H. vm_compute in H. done.
Qed.

Lemma storeOutputs_first_error outs k : ∀ i outputs w e out,
  outs !! (i + k) = Some out → output_IsErr out = true →
  outputs !! k = Some e → IsNil e = false →
  (∀ j o, j < k → outputs !! j = Some o →
     ∃ out', outs !! (i + j) = Some out' ∧
       (output_IsErr out' = true → IsNil o = true)) →
  ∃ w',
    storeOutputs outs i outputs w = (Fail (Error e), w') ∧
    values w' = insertAll (storedBefore outs i k outputs) (values w) ∧
    trace w' = trace w ++ logStores (storedBefore outs i k outputs) ∧
    tasks w' = tasks w ∧ heap w' = heap w ∧ latches w' = latches w.
Proof.
  induction k as [|k IH]; intros i outputs w e out Hout Herr He Hnil Hbefore.
  - destruct outputs as [|o rest]; [done|]. simpl in He. injection He as ->.
    rewrite Nat.add_0_r in Hout. exists w. simpl.
    unfold bind, valid. rewrite Hout. simpl. rewrite Herr, Hnil. simpl.
    by rewrite app_nil_r.
  - destruct outputs as [|o rest]; [done|]. simpl in He.
    destruct (Hbefore 0 o) as (out' & Hout' & Hnil'); [lia|done|].
    rewrite Nat.add_0_r in Hout'.
    assert (∀ j o0, j < k → rest !! j = Some o0 →
      ∃ out'0, outs !! (S i + j) = Some out'0 ∧
        (output_IsErr out'0 = true → IsNil o0 = true)) as Hbefore'.
    { intros j o0 Hj Ho0. destruct (Hbefore (S j) o0) as (x & Hx & ?);
        [lia|done|]. exists x. split; [|done]. rewrite <-Hx. f_equal. lia. }
    assert (outs !! (S i + k) = Some out) as Hout2.
    { rewrite <-Hout. f_equal. lia. }
    simpl. unfold bind at 1. unfold valid. rewrite Hout'. simpl.
    destruct (output_IsErr out') eqn:Herr'.
    + rewrite (Hnil' eq_refl). simpl. eapply IH; eauto.
    + unfold bind at 1, store, modify.
      destruct (IH (S i) rest
        (log (EvStore (output_Type out') o) (set_values <[output_Type out':=o]> w))
        e out Hout2 Herr He Hnil Hbefore') as (w' & Hrun & Hv & Htr & ? & ? & ?).
      exists w'. split; [done|]. simpl in *. rewrite Hv, Htr, <-app_assoc.
      done.
Qed.

Lemma storedBefore_types outs k : ∀ i outputs,
  k ≤ length outputs → i + k ≤ length outs →
  (storedBefore outs i k outputs).*1 = nonErr (take k (drop i outs)).
Proof.
  induction k as [|k IH]; intros i outputs Hk Hi; simpl; [done|].
  destruct outputs as [|o rest]; [simpl in Hk; lia|].
  destruct (outs !! i) as [out|] eqn:Hout.
  2:{ apply lookup_ge_None in Hout. lia. }
  rewrite (drop_S _ _ _ Hout). simpl. rewrite nonErr_cons.
  simpl in Hk. destruct (output_IsErr out); simpl; rewrite IH; try done; lia.
Qed.

(** C2, in the form that holds: the action stops at the first error
    result that is not nil and returns it; the results before it that
    are not errors have been stored by then, those after it are not. *)
Theorem C2_first_error_aborts U l v ins outs w args k e out :
  latches w !! l = Some false →
  readAll (heap w) ((λ t, values w !! t) <$> ins) = Some args →
  outs !! k = Some out → output_IsErr out = true →
  (Call v (heap w) args).2 !! k = Some e → IsNil e = false →
  (∀ j out' o, j < k → outs !! j = Some out' → output_IsErr out' = true →
     (Call v (heap w) args).2 !! j = Some o → IsNil o = true) →
  let stored := storedBefore outs 0 k (Call v (heap w) args).2 in
  ∃ w',
    run U (customDo l v ins outs) w = (Fail (Error e), w') ∧
    values w' = insertAll stored (values w) ∧
    storesOf (trace w') = storesOf (trace w) ++ stored ∧
    stored.*1 = nonErr (take k outs) ∧
    (nonErr (take k outs) = [] → values w' = values w) ∧
    tasks w' = tasks w.
Proof.
  intros Hl Hargs Hout Herr He Hnil Hbefore stored. simpl.
  unfold run_customDo, callFunction, bind, valid, get, modify, ret. simpl.
  rewrite Hl. simpl. rewrite Hargs. simpl. subst stored.
  destruct (Call v (heap w) args) as [h outputs] eqn:Hcall. simpl in *.
  set (stored := storedBefore outs 0 k outputs).
  edestruct (storeOutputs_first_error outs k 0 outputs) as (w' & Hrun & Hv & Htr & Ht & _).
  - exact Hout.
  - exact Herr.
  - exact He.
  - exact Hnil.
  - intros j o Hj Ho. simpl.
    destruct (outs !! j) as [out'|] eqn:Hout'.
    + exists out'. split; [done|]. eauto.
    + apply lookup_ge_None in Hout'. apply lookup_lt_Some in Hout. lia.
  - exists w'. rewrite Hrun. simpl in *.
    assert (stored.*1 = nonErr (take k outs)) as Hty.
    { unfold stored. rewrite storedBefore_types; [done| |].
      - apply lookup_lt_Some in He. lia.
      - apply lookup_lt_Some in Hout. simpl. lia. }
    split_and!; try done.
    + rewrite Htr, !storesOf_app, storesOf_logStores. simpl. by rewrite app_nil_r.
    + intros Hnone. rewrite Hnone in Hty. rewrite Hv.
      fold stored. destruct stored; [done|discriminate].
Qed.

Lemma C2_witness :
  ∃ w', run rulesU (customDo 0 failingRule [] (mkOutput rulesU <$> [X; errorT]))
          (World ∅ ∅ [] [false] []) = (Fail (Error (VErr "boom")), w') ∧
        values w' !! X = Some (VStr "x").
Proof.
  destruct (C2_first_error_aborts rulesU 0 failingRule []
              (mkOutput rulesU <$> [X; errorT]) (World ∅ ∅ [] [false] []) []
              1 (VErr "boom") (mkOutput rulesU errorT))
    as (w' & Hrun & Hv & _); try reflexivity.
  - intros [|j] out' o Hj; [|lia]. vm_compute. by intros [= <-].
  - exists w'. split; [exact Hrun|]. rewrite Hv. reflexivity.
Defined.

(** C6: a malformed argument does not undo the arguments before it.
    With a rule for X, [Provide(&x, notAPointer)] fails on its second
    argument; by then the rule's function has been called, the Partial
    task of X has run and the caller's variable [x] is set. *)
Lemma C6_counterexample :
  let r := lifetime rulesU 3
             [CallAddRule (FuncValue xRule);
              CallProvide [Pointer X 0; NotPointer]]
             (caller 1) in
  r.1 = Fail (Error (VErr
          "arguments to Provide must be non-nil pointers (that Provide will set)")) ∧
  callsOf (trace r.2) = [0] ∧
  dosOf (trace r.2) = [Task X false] ∧
  heap r.2 !! 0 = Some (VStr "x").
Proof. split_and!; vm_compute; reflexivity. Qed.

Lemma Provide_app U fuel ptrs1 ptrs2 w :
  Provide U fuel (ptrs1 ++ ptrs2) w =
  match Provide U fuel ptrs1 w with
  | (Ok _, w1) => Provide U fuel ptrs2 w1
  | (Fail f, w1) => (Fail f, w1)
  end.
Proof.
  revert w. induction ptrs1 as [|ptr rest IH]; intros w; simpl; [done|].
  destruct ptr as [|t|t a]; try done.
  destruct (isErrorType U t); [done|].
  unfold bind, get, modify.
  destruct (Provider_complete U fuel t w) as [[[]|f] w1]; [|done].
  destruct (values w1 !! t) as [v|]; [|done].
  unfold valid, ret, fail. destruct (read (heap w1) v); [|done]. apply IH.
Qed.

(** C6, in the form that holds: a malformed argument is rejected when
    its turn comes, before any work for it or for the arguments after
    it; the arguments before it have been served. *)
Theorem C6_rejected_at_its_turn U fuel before bad rest w msg :
  rejection U bad = Some msg →
  Provide U fuel (before ++ bad :: rest) w =
  match Provide U fuel before w with
  | (Ok _, w1) => (Fail (Error (VErr msg)), w1)
  | (Fail f, w1) => (Fail f, w1)
  end.
Proof.
  intros Hbad. rewrite Provide_app.
  destruct (Provide U fuel before w) as [[[]|f] w1]; [|done].
  simpl. destruct bad as [|t|t a]; simpl in Hbad; simplify_eq; try done.
  destruct (isErrorType U t); by simplify_eq.
Qed.

Lemma C6_witness :
  Provide rulesU 3 ([] ++ NilPointer X :: [Pointer X 0]) (caller 1) =
  (Fail (Error (VErr
     "arguments to Provide must be non-nil pointers (that Provide will set)")),
   caller 1).
Proof. apply (C6_rejected_at_its_turn rulesU 3 [] (NilPointer X)). reflexivity. Defined.

Lemma scanFields_bad U elem fields : ∀ i providedFields,
  (∃ field, field ∈ fields ∧ badTag U field) →
  ∃ err, scanFields U elem fields i providedFields = inr err.
Proof.
  induction fields as [|field rest IH]; intros i acc (bad & Hin & Hbad).
  { by apply elem_of_nil in Hin. }
  simpl. apply elem_of_cons in Hin as [->|Hin].
  - destruct Hbad as (tag & -> & Hor).
    destruct (bool_decide (tag = "circular")) eqn:Hc; simpl.
    + apply bool_decide_eq_true in Hc.
      destruct Hor as [[_ ?]|[_ ->]]; [done|]. simpl. eauto.
    + apply bool_decide_eq_false in Hc.
      destruct Hor as [[Hn _]|[? _]]; [|done].
      rewrite bool_decide_eq_false_2 by done. simpl. eauto.
  - assert (Hrest : ∀ i acc, ∃ err, scanFields U elem rest i acc = inr err).
    { intros i' acc'. apply IH. by exists bad. }
    destruct (Lookup (field_Tag field) "provide") as [tag|]; [|by apply Hrest].
    destruct (negb (bool_decide (tag = "circular")));
      [destruct (negb (bool_decide (tag = "")))
      |destruct (negb (isReferenceType U (field_Type field)))];
      eauto.
Qed.

Lemma isReferenceType_spec U typ :
  isReferenceType U typ = true ↔
  Kind U typ = reflect.Ptr ∨ Kind U typ = reflect.Interface
  ∨ Kind U typ = reflect.Map ∨ Kind U typ = reflect.Chan.
Proof.
  unfold isReferenceType. rewrite !orb_true_iff, !bool_decide_eq_true. tauto.
Qed.

(** C8: a pointer to a struct with a field whose provide tag is neither
    empty nor "circular", or is "circular" on a field that is not of
    reference kind, is not derived: [autoProvide] returns an error and no
    initializer, and the TaskStore stays as it is. *)
Theorem C8_tag_validation U typ :
  Kind U typ = reflect.Ptr → Kind U (Elem U typ) = reflect.Struct →
  (∃ field, field ∈ Fields U (Elem U typ) ∧ badTag U field) →
  (∃ err, autoProvide U typ = inr err) ∧
  (∀ level w, tasks w !! Task typ level = None →
     ∃ err, Provider_state U (Task typ level) w = (Fail (Error (VErr err)), w)) ∧
  (∀ field, isReferenceType U (field_Type field) = true ↔
     Kind U (field_Type field) = reflect.Ptr
     ∨ Kind U (field_Type field) = reflect.Interface
     ∨ Kind U (field_Type field) = reflect.Map
     ∨ Kind U (field_Type field) = reflect.Chan).
Proof.
  intros Hptr Hstruct Hbad.
  assert (∃ err, autoProvide U typ = inr err) as [err Herr].
  { unfold autoProvide. rewrite Hptr, Hstruct. simpl.
    destruct (scanFields_bad U (Elem U typ) (Fields U (Elem U typ)) 0 [] Hbad)
      as [err ->]. eauto. }
  split_and!; [eauto| |intros; apply isReferenceType_spec].
  intros level w Hnone. exists err.
  unfold Provider_state. rewrite bind_get, Hnone. simpl. by rewrite Herr.
Qed.

Lemma C8_witness : ∃ err, autoProvide badTagU (TPtr Foo) = inr err.
Proof.
  apply (C8_tag_validation badTagU (TPtr Foo)); [reflexivity..|].
  eexists. split; [by left|]. exists "circular". split; [reflexivity|].
  right. split; reflexivity.
Defined.

(** ** Fields, then PleaseProvide *)









Lemma run_latched U l v ins outs w :
  latches w !! l = Some true → run U (customDo l v ins outs) w = (Ok tt, w).
Proof.
  intros Hl. simpl. unfold run_customDo, bind, get, valid, ret. by rewrite Hl.
Qed.

Lemma doStep_Done U t s st nd w :
  tasks w !! t = Some s → Done s = true →
  doStep U t st nd w = (Ok (removelast st, nd), w).
Proof.
  intros Hs Hd. unfold doStep, Provider_state, finishTask, bind, get, ret.
  rewrite Hs. simpl. by rewrite Hd.
Qed.

(** C3: over the life of a Provider the function of a rule is called at
    most once.  All the tasks of the rule hold one closure, with one
    latch; the closure called with its latch set does nothing and
    succeeds; and the scheduler does not call the action of a Done task. *)
Theorem C3_rule_function_called_once U fuel h calls :
  NoDup (callsOf (trace (lifetime U fuel calls (fresh h)).2)) ∧
  (∀ v w,
     let doFn := customDo (length (latches w)) v (In v) (mkOutput U <$> Out v) in
     ∃ initializers,
       (customProvide U (FuncValue v) w).1 = Ok initializers ∧
       init_Type <$> initializers = nonErr (mkOutput U <$> Out v) ∧
       ∀ init, init ∈ initializers → Do (Partial init) = Some doFn) ∧
  (∀ l v ins outs w,
     latches w !! l = Some true → run U (customDo l v ins outs) w = (Ok tt, w)) ∧
  (∀ t s st nd w,
     tasks w !! t = Some s → Done s = true →
     doStep U t st nd w = (Ok (removelast st, nd), w)).
Proof.
  split_and!.
  - destruct (lifetime U fuel calls (fresh h)) as [r w] eqn:H.
    by apply latched_lifetime in H as [? _].
  - intros v w doFn. eexists. split; [reflexivity|].
    split; [apply customInitializers_types|].
    intros init (_ & -> & _)%customInitializers_elem. done.
  - apply run_latched.
  - apply doStep_Done.
Qed.

(** A rule with two results, each requested by a call of its own: the
    function is called once. *)
Lemma C3_witness :
  let r := lifetime rulesU 3
             [CallAddRule (FuncValue xyRule);
              CallProvide [Pointer X 0]; CallProvide [Pointer Y 1]]
             (fresh [VNil; VNil]) in
  r.1 = Ok tt ∧ callsOf (trace r.2) = [0] ∧ NoDup (callsOf (trace r.2)) ∧
  heap r.2 = [VStr "x"; VStr "y"].
Proof.
  intros r. split_and!.
  - vm_compute. reflexivity.
  - vm_compute. reflexivity.
  - apply (C3_rule_function_called_once rulesU 3 [VNil; VNil]).
  - vm_compute. reflexivity.
Defined.

(** What a request leaves in the caller's variable: what the stored Value
    holds when Provide sets the variable. *)
Lemma Provide_sets U fuel t a w w' :
  Provide U fuel [Pointer t a] w = (Ok tt, w') →
  ∃ v x, values w' !! t = Some v ∧ read (heap w') v = Some x ∧
         (a < length (heap w') → heap w' !! a = Some x).
Proof.
  intros H. simpl in H.
  destruct (isErrorType U t); [by inv_ret H|].
  inv_bind H. msimpl H.
  destruct (values w0 !! t) as [v|] eqn:Hv; [|by inv_ret H].
  destruct (read (heap w0) v) as [x|] eqn:Hx; [|by inv_ret H].
  simpl in H. msimpl H. inv_ret H.
  exists v, x. split_and!; [done| |].
  - destruct v; simpl in *; simplify_eq; try done.
    destruct (decide (a = a1)) as [->|].
    + apply list_lookup_insert_eq. by eapply lookup_lt_Some.
    + by rewrite list_lookup_insert_ne.
  - rewrite length_insert. intros ?. by apply list_lookup_insert_eq.
Qed.

(** C5 does not hold of a struct requested by value: with a rule that
    receives the pointer to the struct and changes it run between two
    requests for the struct, both requests succeed, every rule function
    runs once, the ValueStore entry of the struct is the same at both
    requests, and the two variables receive different values. *)
Lemma C5_counterexample :
  let calls := [CallAddRule (FuncValue labelRule); CallAddRule (FuncValue setRule);
                CallProvide [Pointer Box 0]; CallProvide [Pointer X 1];
                CallProvide [Pointer Box 2]] in
  let r := lifetime aliasU 20 calls (caller 3) in
  r.1 = Ok tt ∧
  heap r.2 !! 0 = Some (VStruct [VStr "kp"]) ∧
  heap r.2 !! 2 = Some (VStruct [VStr "changed"]) ∧
  values r.2 !! Box = Some (VRef 3) ∧
  values r.2 !! TPtr Box = Some (VPtr 3) ∧
  writesOf (trace r.2) =
    [(Box, VRef 3, VStruct [VStr "kp"]); (X, VStr "x", VStr "x");
     (Box, VRef 3, VStruct [VStr "changed"])] ∧
  callsOf (trace r.2) = [0; 1].
Proof. cbv zeta. split_and!; vm_compute; reflexivity. Qed.

(** C5, in the form that holds: a Value once stored for a type stays; no
    type is stored twice; all the variables Provide sets for a type are
    set from the one Value stored for it, and receive that very value
    unless the Value is the memory of a struct reached through its
    pointer; a request leaves in the variable what the stored Value holds
    at that time; and no function of a rule, no PleaseProvide of a type
    and no action of a task runs twice. *)
Theorem C5_one_value_per_type U fuel1 fuel2 h calls1 calls2 w1 r w2 :
  lifetime U fuel1 calls1 (fresh h) = (Ok tt, w1) →
  lifetime U fuel2 calls2 w1 = (r, w2) →
  (∀ typ v, values w1 !! typ = Some v → values w2 !! typ = Some v) ∧
  NoDup (storesOf (trace w2)).*1 ∧
  (∀ typ v x v' x',
     (typ, v, x) ∈ writesOf (trace w2) → (typ, v', x') ∈ writesOf (trace w2) →
     v' = v ∧ values w2 !! typ = Some v ∧
     ((∀ a, v ≠ VRef a) → x = v ∧ x' = v)) ∧
  (∀ fuel t a w3,
     Provide U fuel [Pointer t a] w2 = (Ok tt, w3) →
     ∃ v x, values w3 !! t = Some v ∧ read (heap w3) v = Some x ∧
            (a < length (heap w3) → heap w3 !! a = Some x)) ∧
  NoDup (callsOf (trace w2)) ∧
  NoDup (initsOf (trace w2)) ∧
  NoDup (dosOf (trace w2)).
Proof.
  intros H1 H2.
  destruct (good_lifetime _ _ _ _ _ _ (good_fresh h) H1) as [_ Hg].
  specialize (Hg eq_refl).
  destruct (good_lifetime _ _ _ _ _ _ Hg H2)
    as [([Hcalls _] & (Hnd & Hval & Hdos & Hinits & Hsets & Hwr) & [more Hpre]) _].
  destruct Hg as (_ & _ & _ & (_ & Hval1 & _) & _).
  split_and!; try done.
  - intros typ v Hv. rewrite Hval, Hpre, storesOf_app, insertAll_app, <-Hval1.
    rewrite insertAll_other; [done|].
    rewrite Hpre, storesOf_app, fmap_app in Hnd.
    apply NoDup_app in Hnd as (_ & Hdisj & _). apply Hdisj.
    apply insertAll_lookup_elem. rewrite <-Hval1, Hv. eauto.
  - intros typ v x v' x' Hv Hv'.
    pose proof (Hsets _ _ (writesOf_setsOf _ _ _ _ Hv)) as E.
    pose proof (Hsets _ _ (writesOf_setsOf _ _ _ _ Hv')) as E'.
    assert (v' = v) as -> by congruence.
    split_and!; [done..|]. intros Hdirect.
    destruct (Hwr _ _ _ Hv) as [?|[? ?]], (Hwr _ _ _ Hv') as [?|[? ?]];
      try done; by edestruct Hdirect.
  - intros fuel t a w3. apply Provide_sets.
Qed.

Lemma C5_witness :
  let r1 := lifetime rulesU 3
              [CallAddRule (FuncValue xRule); CallProvide [Pointer X 0]]
              (fresh [VNil; VNil]) in
  let r2 := lifetime rulesU 3 [CallProvide [Pointer X 1]] r1.2 in
  r1.1 = Ok tt ∧ r2.1 = Ok tt ∧
  heap r2.2 = [VStr "x"; VStr "x"] ∧
  writesOf (trace r2.2) = [(X, VStr "x", VStr "x"); (X, VStr "x", VStr "x")] ∧
  NoDup (storesOf (trace r2.2)).*1 ∧ NoDup (callsOf (trace r2.2)).
Proof.
  intros r1 r2.
  assert (lifetime rulesU 3
            [CallAddRule (FuncValue xRule); CallProvide [Pointer X 0]]
            (fresh [VNil; VNil]) = (Ok tt, r1.2)) as H1
    by (vm_compute; reflexivity).
  assert (lifetime rulesU 3 [CallProvide [Pointer X 1]] r1.2 = (r2.1, r2.2)) as H2
    by apply surjective_pairing.
  destruct (C5_one_value_per_type _ _ _ _ _ _ _ _ _ H1 H2)
    as (_ & Hnd & _ & _ & Hc & _).
  split_and!; [vm_compute; reflexivity..|exact Hnd|exact Hc].
Defined.

(** C10: when [complete] returns without error, the ValueStore has a
    value for the type: Provide finds it. *)
Theorem C10_completed_type_has_value U fuel fuel' h calls w typ w' :
  Forall (admissibleCall wellTyped) calls →
  lifetime U fuel calls (fresh h) = (Ok tt, w) →
  Provider_complete U fuel' typ w = (Ok tt, w') →
  is_Some (values w' !! typ).
Proof.
  intros Hwt Hlife Hcomp.
  assert (sound w []) as Hs.
  { eapply sound_lifetime; eauto using sound_fresh. }
  assert (sound w' []) as (_ & _ & _ & [Hv _]).
  { eapply (proj2 (sound_all U)); eauto. }
  destruct Hs as (Hp & _).
  destruct (Provider_complete_post _ _ _ _ _ Hp Hcomp) as (_ & _ & (s & Hs & Hd) & _).
  apply (Hv _ _ Hs Hd).
Qed.

Lemma C10_witness :
  let w := (lifetime rulesU 3 [CallAddRule (FuncValue xyRule)] (fresh [])).2 in
  is_Some (values (Provider_complete rulesU 3 Y w).2 !! Y).
Proof.
  intros w.
  apply (C10_completed_type_has_value rulesU 3 3 []
           [CallAddRule (FuncValue xyRule)] w Y).
  - repeat constructor.
  - vm_compute. reflexivity.
  - vm_compute. reflexivity.
Defined.

(** ** Running the scheduler by hand *)














Section Circular.
Variable U : Universe.
Variables a b : string.
Hypothesis a_b : a ≠ b.
Let A : rtype := TPtr (TNamed a).
Let B : rtype := TPtr (TNamed b).
Hypothesis kind_a : kindOf U a = reflect.Struct.
Hypothesis kind_b : kindOf U b = reflect.Struct.
Hypothesis fields_a : structFields U a =
  [{| field_Type := B; field_Tag := provideTag "circular";
        field_Exported := true |}].
Hypothesis fields_b : structFields U b =
  [{| field_Type := A; field_Tag := provideTag "";
        field_Exported := true |}].
Hypothesis init_a : PleaseProvide U A = None.
Hypothesis init_b : PleaseProvide U B = None.
Hypothesis zero_a : zeroValue U (TNamed a) = VStruct [VNil].
Hypothesis zero_b : zeroValue U (TNamed b) = VStruct [VNil].




End Circular.




